(** * Springs-and-struts layout: the Row and Column containers

    A shallow embedding of [Row.js] and [Column.js] and the properties of
    their sizing pass ([_doLocalSizing]) and placement pass
    ([_completeLocalLayout], with [_adjustChildren], [_measureChildren],
    [_expandChildSprings] and [_compressChildren]).

    Conventions of the embedding.
    - A JavaScript number is an exact rational ([Q]); equality of computed
      numbers is [Qeq] ([==]).  The [max] component of a size configuration
      may also be [+Infinity] (an elastic configuration), so it ranges over
      [xQ]; natural and minimum sizes are finite.
    - Size configurations are heap objects: an object holds a reference
      ([loc]) to its configuration and the heap maps references to the
      (natural, min, max) triples.  [new SizeConfig(..)] allocates, and
      [cfg.nat = v] overwrites one field of the object in place.
    - A [for (let child of this.children)] loop is a recursive function over
      the list of children, with the loop's local variables as accumulators;
      an assignment to a field of [child] rebuilds that child in place.
      The children in the list are distinct objects; configuration
      objects may be shared between them and with the container. *)

From Stdlib Require Import QArith Qfield Lqa String.
From stdpp Require Import base list.

Local Open Scope Q_scope.

(* ================================================================== *)
(** ** Numbers *)

Module Math.
(** [Math.max(a, b)] and [Math.min(a, b)] on finite numbers. *)
Definition max (a b : Q) : Q := if Qlt_le_dec a b then b else a.
Definition min (a b : Q) : Q := if Qlt_le_dec b a then b else a.
End Math.

(** A number that may be [+Infinity]. *)
Inductive xQ : Type :=
| Fin (q : Q)
| Infinity.

(** [a + b] where either side may be [+Infinity]. *)
Definition xadd (a b : xQ) : xQ :=
  match a, b with
  | Fin p, Fin q => Fin (p + q)
  | _, _ => Infinity
  end.

(** [Math.max(a, b)] where either side may be [+Infinity]. *)
Definition xmax (a b : xQ) : xQ :=
  match a, b with
  | Fin p, Fin q => Fin (Math.max p q)
  | _, _ => Infinity
  end.

Definition xeq (a b : xQ) : Prop :=
  match a, b with
  | Fin p, Fin q => p == q
  | Infinity, Infinity => True
  | _, _ => False
  end.

Definition xle (a b : xQ) : Prop :=
  match a, b with
  | Fin p, Fin q => p <= q
  | _, Infinity => True
  | Infinity, Fin _ => False
  end.

(* ================================================================== *)
(** ** SizeConfig *)

Module SizeConfig.
(** [new SizeConfig(nat, min, max)]: the constructor call sites of
    [Row.js] and [Column.js] pass the three components in this order. *)
Record t : Type := mk { nat : Q; min : Q; max : xQ }.

(** Modelled from the spec: [SizeConfig.js] is not among the sources;
    [fixed(v)] is (v, v, v). *)
Definition fixed (v : Q) : t := mk v v (Fin v).

(** Modelled from the spec: [SizeConfig.js] is not among the sources;
    [elastic(v)] is (v, 0, +Infinity). *)
Definition elastic (v : Q) : t := mk v 0 Infinity.

(** The invariant of the data model: non-negative components with
    min <= natural <= max. *)
Definition wf (c : t) : Prop :=
  0 <= min c /\ min c <= nat c /\ xle (Fin (nat c)) (max c).

(** Two configurations with the same components up to [==]. *)
Definition eqv (c d : t) : Prop :=
  nat c == nat d /\ min c == min d /\ xeq (max c) (max d).
End SizeConfig.

(* ================================================================== *)
(** ** The heap of SizeConfig objects *)

(** A reference is an index into the heap; the heap is the list of the
    objects allocated so far. *)
Abbreviation loc := Datatypes.nat.
Abbreviation Heap := (list SizeConfig.t).

(** Reading through a reference.  Every reference held by an object of a
    running program points to an allocated configuration; the fallback is
    never reached on such heaps. *)
Definition deref (hp : Heap) (l : loc) : SizeConfig.t :=
  default (SizeConfig.mk 0 0 (Fin 0)) (hp !! l).

(** [new SizeConfig(..)]: a fresh object at the next free reference. *)
Definition alloc (hp : Heap) (c : SizeConfig.t) : Heap * loc :=
  (hp ++ [c], length hp).

(** [cfg.nat = v]: the [nat] field of the object at [l] is overwritten, the
    two other fields of that object and all other objects are kept. *)
Definition store_nat (hp : Heap) (l : loc) (v : Q) : Heap :=
  alter (fun c => SizeConfig.mk v (SizeConfig.min c) (SizeConfig.max c)) l hp.

(* ================================================================== *)
(** ** Children *)

Module DrawnObject.
(** A child of a container, as far as the layout code touches it: its
    bounding box, the references to its two size configurations and
    whether it is an instance of [Spring]. *)
Record t : Type := mk {
  isSpring : bool;
  x : Q; y : Q; w : Q; h : Q;
  wConfig : loc; hConfig : loc
}.

(** Modelled from the spec: the class of the children is not among the
    sources; their [x], [y], [w] and [h] setters store the new value
    (the container sets each child's (x, y, w, h)). *)
Definition set_x (v : Q) (c : t) : t :=
  mk (isSpring c) v (y c) (w c) (h c) (wConfig c) (hConfig c).
Definition set_y (v : Q) (c : t) : t :=
  mk (isSpring c) (x c) v (w c) (h c) (wConfig c) (hConfig c).
Definition set_w (v : Q) (c : t) : t :=
  mk (isSpring c) (x c) (y c) v (h c) (wConfig c) (hConfig c).
Definition set_h (v : Q) (c : t) : t :=
  mk (isSpring c) (x c) (y c) (w c) v (wConfig c) (hConfig c).

(** Modelled from the spec: the accessors [naturalW] and [minW] used by
    [Row._measureChildren] are not among the sources; they read the
    natural and the minimum of the width configuration, as
    [Column._measureChildren] does with [hConfig.nat] and [hConfig.min]. *)
Definition naturalW (hp : Heap) (c : t) : Q := SizeConfig.nat (deref hp (wConfig c)).
Definition minW (hp : Heap) (c : t) : Q := SizeConfig.min (deref hp (wConfig c)).
End DrawnObject.

(** Modelled from the spec: [damageAll] is a method of a class that is not
    among the sources.  A call is recorded as a notification that carries
    the bounding box (x, y, w, h) of the object at the time of the call;
    what the notification causes is outside the model. *)
Inductive Notification : Type :=
| DamageAll (x y w h : Q).

(* ================================================================== *)
(** ** Row.js *)

Module Row.
Import DrawnObject.

Record t : Type := mk {
  x : Q; y : Q; w : Q; h : Q;
  _wConfig : loc; _hConfig : loc;
  _hJustification : string;
  children : list DrawnObject.t
}.

(** Field updates of [this]. *)
Definition with_children (cs : list DrawnObject.t) (this : t) : t :=
  mk (x this) (y this) (w this) (h this) (_wConfig this) (_hConfig this)
     (_hJustification this) cs.
Definition with__wConfig (l : loc) (this : t) : t :=
  mk (x this) (y this) (w this) (h this) l (_hConfig this)
     (_hJustification this) (children this).
Definition with__hConfig (l : loc) (this : t) : t :=
  mk (x this) (y this) (w this) (h this) (_wConfig this) l
     (_hJustification this) (children this).

(** Modelled from the spec: the [h] setter is inherited from a class that
    is not among the sources; on the cross axis it stores the value. *)
Definition set_h (v : Q) (this : t) : t :=
  mk (x this) (y this) (w this) v (_wConfig this) (_hConfig this)
     (_hJustification this) (children this).

(** The constructor: a row without children, fixed in width and elastic
    in height, top justified (visibility is outside the model). *)
Definition new (hp : Heap) (x0 y0 w0 h0 : Q) : Heap * t :=
  let '(hp, wc) := alloc hp (SizeConfig.fixed w0) in
  let '(hp, hc) := alloc hp (SizeConfig.elastic h0) in
  (hp, mk x0 y0 w0 h0 wc hc "top" []).

(** [set w(v)]: the width setter pins the width configuration to
    [fixed(v)] (the damage notifications are outside the model). *)
Definition set_w (hp : Heap) (v : Q) (this : t) : Heap * t :=
  if Qeq_bool v (w this) then (hp, this)
  else
    let '(hp, wc) := alloc hp (SizeConfig.fixed v) in
    (hp, mk (x this) (y this) v (h this) wc (_hConfig this)
            (_hJustification this) (children this)).

(** The loop of [_doLocalSizing]; it returns the two configurations built
    after the loop, [(naturalH, minH, maxH)] and [(naturalW, minW, maxW)]. *)
Fixpoint sizing_loop (hp : Heap) (cs : list DrawnObject.t)
    (minW naturalW : Q) (maxW : xQ) (minH naturalH : Q) (maxH : xQ)
    : SizeConfig.t * SizeConfig.t :=
  match cs with
  | [] => (SizeConfig.mk naturalH minH maxH, SizeConfig.mk naturalW minW maxW)
  | child :: rest =>
      let wc := deref hp (wConfig child) in
      let hc := deref hp (hConfig child) in
      sizing_loop hp rest
        (minW + SizeConfig.min wc)
        (naturalW + SizeConfig.nat wc)
        (xadd maxW (SizeConfig.max wc))
        (Math.max minH (SizeConfig.min hc))
        (Math.max naturalH (SizeConfig.nat hc))
        (xmax maxH (SizeConfig.max hc))
  end.

Definition _doLocalSizing (hp : Heap) (this : t) : Heap * t :=
  let '(newH, newW) := sizing_loop hp (children this) 0 0 (Fin 0) 0 0 (Fin 0) in
  let '(hp, hc) := alloc hp newH in
  let this := with__hConfig hc this in
  let '(hp, wc) := alloc hp newW in
  let this := with__wConfig wc this in
  (hp, this).

(** The loop of [_measureChildren]. *)
Fixpoint measure_loop (hp : Heap) (cs : list DrawnObject.t)
    (natSum availCompr numSprings : Q) : Q * Q * Q :=
  match cs with
  | [] => (natSum, availCompr, numSprings)
  | child :: rest =>
      if isSpring child then
        measure_loop hp rest natSum availCompr (numSprings + 1)
      else
        let compr := naturalW hp child - minW hp child in
        measure_loop hp rest (natSum + naturalW hp child) (availCompr + compr)
          numSprings
  end.

Definition _measureChildren (hp : Heap) (this : t) : Q * Q * Q :=
  measure_loop hp (children this) 0 0 0.

Definition _expandChildSprings (excess numSprings : Q) (this : t) : t :=
  if Qeq_bool numSprings 0 then this
  else
    let eachExcess := excess / numSprings in
    with_children
      (map (fun child =>
              if isSpring child then DrawnObject.set_w eachExcess child
              else child)
           (children this))
      this.

Definition _compressChildren (hp : Heap) (shortfall availCompr : Q) (this : t) : t :=
  with_children
    (map (fun child =>
            if negb (isSpring child) then
              let cfg := deref hp (wConfig child) in
              let compr := SizeConfig.nat cfg - SizeConfig.min cfg in
              let fraction := compr / availCompr in
              DrawnObject.set_w
                (Math.max (SizeConfig.min cfg)
                          (SizeConfig.nat cfg - fraction * shortfall))
                child
            else child)
         (children this))
    this.

Definition _adjustChildren (hp : Heap) (this : t) : t :=
  let '(natSum, availCompr, numSprings) := _measureChildren hp this in
  let excess := w this - natSum in
  if Qle_bool 0 excess then
    _expandChildSprings excess numSprings this
  else
    let this :=
      with_children
        (map (fun child =>
                if isSpring child then DrawnObject.set_w 0 child else child)
             (children this))
        this in
    if Qeq_bool availCompr 0 then this
    else
      let shortfall := - excess in
      let shortfall := Math.min availCompr shortfall in
      _compressChildren hp shortfall availCompr this.

(** First loop of [_completeLocalLayout]: children get their natural
    height; the result is the updated children and [hMax]. *)
Fixpoint heights_loop (hp : Heap) (cs : list DrawnObject.t) (hMax : Q)
    : list DrawnObject.t * Q :=
  match cs with
  | [] => ([], hMax)
  | child :: rest =>
      let child := DrawnObject.set_h (SizeConfig.nat (deref hp (hConfig child))) child in
      let hMax := if Qlt_le_dec hMax (DrawnObject.h child)
                  then DrawnObject.h child else hMax in
      let '(rest, hMax) := heights_loop hp rest hMax in
      (child :: rest, hMax)
  end.

(** Second loop of [_completeLocalLayout]: stacking in [x] and justifying
    in [y]. *)
Fixpoint stack_loop (this : t) (cs : list DrawnObject.t) (xpos : Q)
    : list DrawnObject.t :=
  match cs with
  | [] => []
  | child :: rest =>
      let child := DrawnObject.set_x xpos child in
      let xpos := xpos + DrawnObject.w child in
      let child :=
        if String.eqb (_hJustification this) "top" then
          DrawnObject.set_y 0 child
        else if String.eqb (_hJustification this) "center" then
          DrawnObject.set_y (h this / 2 - DrawnObject.h child / 2) child
        else if String.eqb (_hJustification this) "bottom" then
          DrawnObject.set_y (h this - DrawnObject.h child) child
        else
          DrawnObject.set_y 0 child in
      child :: stack_loop this rest xpos
  end.

Definition _completeLocalLayout (hp : Heap) (this : t) : Heap * t :=
  if Nat.eqb (length (children this)) 0 then (hp, this)
  else
    let this := _adjustChildren hp this in
    let '(cs, hMax) := heights_loop hp (children this) 0 in
    let this := with_children cs this in
    (* this.h = this.hConfig.nat = hMax *)
    let hp := store_nat hp (_hConfig this) hMax in
    let this := set_h hMax this in
    let this := with_children (stack_loop this (children this) 0) this in
    (hp, this).

(** [this.damageAll()]. *)
Definition damageAll (this : t) : Notification :=
  DamageAll (x this) (y this) (w this) (h this).

(** [set hJustification(v)], with the notification it sends. *)
Definition set_hJustification (v : string) (this : t) : t * list Notification :=
  if negb (String.eqb v (_hJustification this)) then
    let this := mk (x this) (y this) (w this) (h this) (_wConfig this)
                  (_hConfig this) v (children this) in
    (this, [damageAll this])
  else (this, []).

(** [set w(v)], with the notifications it sends: damage at the old size,
    then damage at the new size. *)
Definition set_w_notifying (hp : Heap) (v : Q) (this : t)
    : Heap * t * list Notification :=
  if negb (Qeq_bool v (w this)) then
    let old := damageAll this in
    let this := mk (x this) (y this) v (h this) (_wConfig this) (_hConfig this)
                  (_hJustification this) (children this) in
    let '(hp, wc) := alloc hp (SizeConfig.fixed v) in
    let this := with__wConfig wc this in
    (hp, this, [old; damageAll this])
  else (hp, this, []).
End Row.

(* ================================================================== *)
(** ** Column.js *)

Module Column.
Import DrawnObject.

Record t : Type := mk {
  x : Q; y : Q; w : Q; h : Q;
  _wConfig : loc; _hConfig : loc;
  _wJustification : string;
  children : list DrawnObject.t
}.

(** Field updates of [this]. *)
Definition with_children (cs : list DrawnObject.t) (this : t) : t :=
  mk (x this) (y this) (w this) (h this) (_wConfig this) (_hConfig this)
     (_wJustification this) cs.

(** Modelled from the spec: the [wConfig] and [hConfig] setters are
    inherited from a class that is not among the sources; they replace
    the container's configuration by the given object. *)
Definition set_wConfig (l : loc) (this : t) : t :=
  mk (x this) (y this) (w this) (h this) l (_hConfig this)
     (_wJustification this) (children this).
Definition set_hConfig (l : loc) (this : t) : t :=
  mk (x this) (y this) (w this) (h this) (_wConfig this) l
     (_wJustification this) (children this).

(** Modelled from the spec: the [w] setter is inherited from a class that
    is not among the sources; on the cross axis it stores the value. *)
Definition set_w (v : Q) (this : t) : t :=
  mk (x this) (y this) v (h this) (_wConfig this) (_hConfig this)
     (_wJustification this) (children this).

(** The constructor: a column without children, elastic in width and
    fixed in height, left justified (visibility is outside the model). *)
Definition new (hp : Heap) (x0 y0 w0 h0 : Q) : Heap * t :=
  let '(hp, wc) := alloc hp (SizeConfig.elastic w0) in
  let '(hp, hc) := alloc hp (SizeConfig.fixed h0) in
  (hp, mk x0 y0 w0 h0 wc hc "left" []).

(** [set h(v)]: the height setter pins the height configuration to
    [fixed(v)] (the damage notifications are outside the model). *)
Definition set_h (hp : Heap) (v : Q) (this : t) : Heap * t :=
  if Qeq_bool v (h this) then (hp, this)
  else
    let '(hp, hc) := alloc hp (SizeConfig.fixed v) in
    (hp, mk (x this) (y this) (w this) v (_wConfig this) hc
            (_wJustification this) (children this)).

(** The loop of [_doLocalSizing]; it returns the two configurations built
    after the loop, [(naturalH, minH, maxH)] and [(naturalW, minW, maxW)]. *)
Fixpoint sizing_loop (hp : Heap) (cs : list DrawnObject.t)
    (minW naturalW : Q) (maxW : xQ) (minH naturalH : Q) (maxH : xQ)
    : SizeConfig.t * SizeConfig.t :=
  match cs with
  | [] => (SizeConfig.mk naturalH minH maxH, SizeConfig.mk naturalW minW maxW)
  | child :: rest =>
      let wc := deref hp (wConfig child) in
      let hc := deref hp (hConfig child) in
      sizing_loop hp rest
        (Math.max minW (SizeConfig.min wc))
        (Math.max naturalW (SizeConfig.nat wc))
        (xmax maxW (SizeConfig.max wc))
        (minH + SizeConfig.min hc)
        (naturalH + SizeConfig.nat hc)
        (xadd maxH (SizeConfig.max hc))
  end.

Definition _doLocalSizing (hp : Heap) (this : t) : Heap * t :=
  let '(newH, newW) := sizing_loop hp (children this) 0 0 (Fin 0) 0 0 (Fin 0) in
  let '(hp, hc) := alloc hp newH in
  let this := set_hConfig hc this in
  let '(hp, wc) := alloc hp newW in
  let this := set_wConfig wc this in
  (hp, this).

(** The loop of [_measureChildren]. *)
Fixpoint measure_loop (hp : Heap) (cs : list DrawnObject.t)
    (natSum availCompr numSprings : Q) : Q * Q * Q :=
  match cs with
  | [] => (natSum, availCompr, numSprings)
  | child :: rest =>
      if isSpring child then
        measure_loop hp rest natSum availCompr (numSprings + 1)
      else
        let cfg := deref hp (hConfig child) in
        let compr := SizeConfig.nat cfg - SizeConfig.min cfg in
        measure_loop hp rest (natSum + SizeConfig.nat cfg) (availCompr + compr)
          numSprings
  end.

Definition _measureChildren (hp : Heap) (this : t) : Q * Q * Q :=
  measure_loop hp (children this) 0 0 0.

Definition _expandChildSprings (excess numSprings : Q) (this : t) : t :=
  if Qeq_bool numSprings 0 then this
  else
    let eachExcess := excess / numSprings in
    with_children
      (map (fun child =>
              if isSpring child then DrawnObject.set_h eachExcess child
              else child)
           (children this))
      this.

Definition _compressChildren (hp : Heap) (shortfall availCompr : Q) (this : t) : t :=
  with_children
    (map (fun child =>
            if negb (isSpring child) then
              let cfg := deref hp (hConfig child) in
              let compr := SizeConfig.nat cfg - SizeConfig.min cfg in
              let fraction := compr / availCompr in
              DrawnObject.set_h
                (Math.max (SizeConfig.min cfg)
                          (SizeConfig.nat cfg - fraction * shortfall))
                child
            else child)
         (children this))
    this.

Definition _adjustChildren (hp : Heap) (this : t) : t :=
  let '(natSum, availCompr, numSprings) := _measureChildren hp this in
  let excess := h this - natSum in
  if Qle_bool 0 excess then
    _expandChildSprings excess numSprings this
  else
    let this :=
      with_children
        (map (fun child =>
                if isSpring child then DrawnObject.set_h 0 child else child)
             (children this))
        this in
    if Qeq_bool availCompr 0 then this
    else
      let shortfall := - excess in
      let shortfall := Math.min availCompr shortfall in
      _compressChildren hp shortfall availCompr this.

(** First loop of [_completeLocalLayout]: children get their natural
    width; the result is the updated children and [wMax]. *)
Fixpoint widths_loop (hp : Heap) (cs : list DrawnObject.t) (wMax : Q)
    : list DrawnObject.t * Q :=
  match cs with
  | [] => ([], wMax)
  | child :: rest =>
      let child := DrawnObject.set_w (SizeConfig.nat (deref hp (wConfig child))) child in
      let wMax := if Qlt_le_dec wMax (DrawnObject.w child)
                  then DrawnObject.w child else wMax in
      let '(rest, wMax) := widths_loop hp rest wMax in
      (child :: rest, wMax)
  end.

(** Second loop of [_completeLocalLayout]: stacking in [y] and justifying
    in [x]. *)
Fixpoint stack_loop (this : t) (cs : list DrawnObject.t) (ypos : Q)
    : list DrawnObject.t :=
  match cs with
  | [] => []
  | child :: rest =>
      let child := DrawnObject.set_y ypos child in
      let ypos := ypos + DrawnObject.h child in
      let child :=
        if String.eqb (_wJustification this) "left" then
          DrawnObject.set_x 0 child
        else if String.eqb (_wJustification this) "center" then
          DrawnObject.set_x (w this / 2 - DrawnObject.w child / 2) child
        else if String.eqb (_wJustification this) "right" then
          DrawnObject.set_x (w this - DrawnObject.w child) child
        else
          DrawnObject.set_x 0 child in
      child :: stack_loop this rest ypos
  end.

Definition _completeLocalLayout (hp : Heap) (this : t) : Heap * t :=
  if Nat.eqb (length (children this)) 0 then (hp, this)
  else
    let this := _adjustChildren hp this in
    let '(cs, wMax) := widths_loop hp (children this) 0 in
    let this := with_children cs this in
    (* this.w = this.wConfig.nat = wMax *)
    let hp := store_nat hp (_wConfig this) wMax in
    let this := set_w wMax this in
    let this := with_children (stack_loop this (children this) 0) this in
    (hp, this).

(** [this.damageAll()]. *)
Definition damageAll (this : t) : Notification :=
  DamageAll (x this) (y this) (w this) (h this).

(** [set wJustification(v)], with the notification it sends. *)
Definition set_wJustification (v : string) (this : t) : t * list Notification :=
  if negb (String.eqb v (_wJustification this)) then
    let this := mk (x this) (y this) (w this) (h this) (_wConfig this)
                  (_hConfig this) v (children this) in
    (this, [damageAll this])
  else (this, []).

(** [set h(v)], with the notifications it sends: damage at the old size,
    then damage at the new size. *)
Definition set_h_notifying (hp : Heap) (v : Q) (this : t)
    : Heap * t * list Notification :=
  if negb (Qeq_bool v (h this)) then
    let old := damageAll this in
    let this := mk (x this) (y this) (w this) v (_wConfig this) (_hConfig this)
                  (_wJustification this) (children this) in
    let '(hp, hc) := alloc hp (SizeConfig.fixed v) in
    let this := set_hConfig hc this in
    (hp, this, [old; damageAll this])
  else (hp, this, []).
End Column.

(* ================================================================== *)
(** ** The algorithm on one axis

    [Row.js] and [Column.js] are the same algorithm mirrored across width
    and height.  [Axis] states it once, over the children seen along a
    primary and a cross axis; the refinement lemmas below show that the
    functions of both files compute it.  The properties are proved on this
    form and transported to [Row] and [Column]. *)

Module Axis.
(** A child seen from its container: position and size on the primary
    and on the cross axis, and the references to its configurations for
    the two axes. *)
Record Item : Type := mk {
  spring : bool;
  ppos : Q; cpos : Q;
  psize : Q; csize : Q;
  pcfg : loc; ccfg : loc
}.

Definition set_ppos (v : Q) (it : Item) : Item :=
  mk (spring it) v (cpos it) (psize it) (csize it) (pcfg it) (ccfg it).
Definition set_cpos (v : Q) (it : Item) : Item :=
  mk (spring it) (ppos it) v (psize it) (csize it) (pcfg it) (ccfg it).
Definition set_psize (v : Q) (it : Item) : Item :=
  mk (spring it) (ppos it) (cpos it) v (csize it) (pcfg it) (ccfg it).
Definition set_csize (v : Q) (it : Item) : Item :=
  mk (spring it) (ppos it) (cpos it) (psize it) v (pcfg it) (ccfg it).

(** The components of the configurations of a child in heap [hp]. *)
Definition natP (hp : Heap) (it : Item) : Q := SizeConfig.nat (deref hp (pcfg it)).
Definition minP (hp : Heap) (it : Item) : Q := SizeConfig.min (deref hp (pcfg it)).
Definition maxP (hp : Heap) (it : Item) : xQ := SizeConfig.max (deref hp (pcfg it)).
Definition natC (hp : Heap) (it : Item) : Q := SizeConfig.nat (deref hp (ccfg it)).
Definition minC (hp : Heap) (it : Item) : Q := SizeConfig.min (deref hp (ccfg it)).
Definition maxC (hp : Heap) (it : Item) : xQ := SizeConfig.max (deref hp (ccfg it)).

(** The justification settings: start is top or left, end is bottom or
    right; any other string is unrecognized. *)
Inductive Justification : Type := JStart | JCenter | JEnd | JUnrecognized.

(** The loop of [_doLocalSizing]: the primary and the cross
    configuration. *)
Fixpoint sizing_loop (hp : Heap) (its : list Item)
    (minP' naturalP : Q) (maxP' : xQ) (minC' naturalC : Q) (maxC' : xQ)
    : SizeConfig.t * SizeConfig.t :=
  match its with
  | [] => (SizeConfig.mk naturalP minP' maxP', SizeConfig.mk naturalC minC' maxC')
  | it :: rest =>
      sizing_loop hp rest
        (minP' + minP hp it) (naturalP + natP hp it) (xadd maxP' (maxP hp it))
        (Math.max minC' (minC hp it)) (Math.max naturalC (natC hp it))
        (xmax maxC' (maxC hp it))
  end.

Fixpoint measure_loop (hp : Heap) (its : list Item)
    (natSum availCompr numSprings : Q) : Q * Q * Q :=
  match its with
  | [] => (natSum, availCompr, numSprings)
  | it :: rest =>
      if spring it then measure_loop hp rest natSum availCompr (numSprings + 1)
      else
        let compr := natP hp it - minP hp it in
        measure_loop hp rest (natSum + natP hp it) (availCompr + compr) numSprings
  end.

Definition measure (hp : Heap) (its : list Item) : Q * Q * Q :=
  measure_loop hp its 0 0 0.

Definition expand_item (eachExcess : Q) (it : Item) : Item :=
  if spring it then set_psize eachExcess it else it.

Definition expand (excess numSprings : Q) (its : list Item) : list Item :=
  if Qeq_bool numSprings 0 then its
  else map (expand_item (excess / numSprings)) its.

Definition compress_item (hp : Heap) (shortfall availCompr : Q) (it : Item) : Item :=
  if negb (spring it) then
    let compr := natP hp it - minP hp it in
    let fraction := compr / availCompr in
    set_psize (Math.max (minP hp it) (natP hp it - fraction * shortfall)) it
  else it.

Definition compress (hp : Heap) (shortfall availCompr : Q) (its : list Item)
    : list Item :=
  map (compress_item hp shortfall availCompr) its.

Definition adjust (hp : Heap) (size : Q) (its : list Item) : list Item :=
  let '(natSum, availCompr, numSprings) := measure hp its in
  let excess := size - natSum in
  if Qle_bool 0 excess then expand excess numSprings its
  else
    let its := map (expand_item 0) its in
    if Qeq_bool availCompr 0 then its
    else compress hp (Math.min availCompr (- excess)) availCompr its.

Fixpoint cross_loop (hp : Heap) (its : list Item) (cMax : Q) : list Item * Q :=
  match its with
  | [] => ([], cMax)
  | it :: rest =>
      let it := set_csize (natC hp it) it in
      let cMax := if Qlt_le_dec cMax (csize it) then csize it else cMax in
      let '(rest, cMax) := cross_loop hp rest cMax in
      (it :: rest, cMax)
  end.

Definition justify (j : Justification) (crossSize : Q) (it : Item) : Item :=
  match j with
  | JStart => set_cpos 0 it
  | JCenter => set_cpos (crossSize / 2 - csize it / 2) it
  | JEnd => set_cpos (crossSize - csize it) it
  | JUnrecognized => set_cpos 0 it
  end.

Fixpoint stack_loop (j : Justification) (crossSize : Q) (its : list Item) (pos : Q)
    : list Item :=
  match its with
  | [] => []
  | it :: rest =>
      let it := set_ppos pos it in
      let pos := pos + psize it in
      justify j crossSize it :: stack_loop j crossSize rest pos
  end.

(** Placement of the children of a container that has some: the placed
    children and the cross-axis size of the container. *)
Definition place (hp : Heap) (j : Justification) (size : Q) (its : list Item)
    : list Item * Q :=
  let its := adjust hp size its in
  let '(its, cMax) := cross_loop hp its 0 in
  (stack_loop j cMax its 0, cMax).
End Axis.

(** The view of [Row.js]: width is the primary axis, height the cross axis. *)
Module RowView.
Definition item (c : DrawnObject.t) : Axis.Item :=
  Axis.mk (DrawnObject.isSpring c)
    (DrawnObject.x c) (DrawnObject.y c) (DrawnObject.w c) (DrawnObject.h c)
    (DrawnObject.wConfig c) (DrawnObject.hConfig c).

Definition justification (s : string) : Axis.Justification :=
  if String.eqb s "top" then Axis.JStart
  else if String.eqb s "center" then Axis.JCenter
  else if String.eqb s "bottom" then Axis.JEnd
  else Axis.JUnrecognized.

(** The child behind an item. *)
Definition object (it : Axis.Item) : DrawnObject.t :=
  DrawnObject.mk (Axis.spring it)
    (Axis.ppos it) (Axis.cpos it) (Axis.psize it) (Axis.csize it)
    (Axis.pcfg it) (Axis.ccfg it).
End RowView.

(** The view of [Column.js]: height is the primary axis, width the cross
    axis. *)
Module ColumnView.
Definition item (c : DrawnObject.t) : Axis.Item :=
  Axis.mk (DrawnObject.isSpring c)
    (DrawnObject.y c) (DrawnObject.x c) (DrawnObject.h c) (DrawnObject.w c)
    (DrawnObject.hConfig c) (DrawnObject.wConfig c).

Definition justification (s : string) : Axis.Justification :=
  if String.eqb s "left" then Axis.JStart
  else if String.eqb s "center" then Axis.JCenter
  else if String.eqb s "right" then Axis.JEnd
  else Axis.JUnrecognized.

(** The child behind an item. *)
Definition object (it : Axis.Item) : DrawnObject.t :=
  DrawnObject.mk (Axis.spring it)
    (Axis.cpos it) (Axis.ppos it) (Axis.csize it) (Axis.psize it)
    (Axis.ccfg it) (Axis.pcfg it).
End ColumnView.

(* ================================================================== *)
(** ** A container is a row or a column *)

Inductive AxisBoxContainer : Type :=
| RowBox (r : Row.t)
| ColumnBox (c : Column.t).

Module Box.
Definition children (b : AxisBoxContainer) : list DrawnObject.t :=
  match b with
  | RowBox r => Row.children r
  | ColumnBox c => Column.children c
  end.

(** The children as seen along the axes of the container. *)
Definition items (b : AxisBoxContainer) : list Axis.Item :=
  match b with
  | RowBox r => map RowView.item (Row.children r)
  | ColumnBox c => map ColumnView.item (Column.children c)
  end.

Definition primarySize (b : AxisBoxContainer) : Q :=
  match b with RowBox r => Row.w r | ColumnBox c => Column.h c end.
Definition crossSize (b : AxisBoxContainer) : Q :=
  match b with RowBox r => Row.h r | ColumnBox c => Column.w c end.
Definition primaryPos (b : AxisBoxContainer) : Q :=
  match b with RowBox r => Row.x r | ColumnBox c => Column.y c end.
Definition crossPos (b : AxisBoxContainer) : Q :=
  match b with RowBox r => Row.y r | ColumnBox c => Column.x c end.
Definition primaryConfig (b : AxisBoxContainer) : loc :=
  match b with RowBox r => Row._wConfig r | ColumnBox c => Column._hConfig c end.
Definition crossConfig (b : AxisBoxContainer) : loc :=
  match b with RowBox r => Row._hConfig r | ColumnBox c => Column._wConfig c end.
Definition justification (b : AxisBoxContainer) : Axis.Justification :=
  match b with
  | RowBox r => RowView.justification (Row._hJustification r)
  | ColumnBox c => ColumnView.justification (Column._wJustification c)
  end.

(** The methods, dispatched on the class of the container. *)
Definition _doLocalSizing (hp : Heap) (b : AxisBoxContainer) : Heap * AxisBoxContainer :=
  match b with
  | RowBox r => let '(hp, r) := Row._doLocalSizing hp r in (hp, RowBox r)
  | ColumnBox c => let '(hp, c) := Column._doLocalSizing hp c in (hp, ColumnBox c)
  end.
Definition _measureChildren (hp : Heap) (b : AxisBoxContainer) : Q * Q * Q :=
  match b with
  | RowBox r => Row._measureChildren hp r
  | ColumnBox c => Column._measureChildren hp c
  end.
Definition _expandChildSprings (excess numSprings : Q) (b : AxisBoxContainer)
    : AxisBoxContainer :=
  match b with
  | RowBox r => RowBox (Row._expandChildSprings excess numSprings r)
  | ColumnBox c => ColumnBox (Column._expandChildSprings excess numSprings c)
  end.
Definition _compressChildren (hp : Heap) (shortfall availCompr : Q)
    (b : AxisBoxContainer) : AxisBoxContainer :=
  match b with
  | RowBox r => RowBox (Row._compressChildren hp shortfall availCompr r)
  | ColumnBox c => ColumnBox (Column._compressChildren hp shortfall availCompr c)
  end.
Definition _adjustChildren (hp : Heap) (b : AxisBoxContainer) : AxisBoxContainer :=
  match b with
  | RowBox r => RowBox (Row._adjustChildren hp r)
  | ColumnBox c => ColumnBox (Column._adjustChildren hp c)
  end.
Definition _completeLocalLayout (hp : Heap) (b : AxisBoxContainer)
    : Heap * AxisBoxContainer :=
  match b with
  | RowBox r => let '(hp, r) := Row._completeLocalLayout hp r in (hp, RowBox r)
  | ColumnBox c => let '(hp, c) := Column._completeLocalLayout hp c in (hp, ColumnBox c)
  end.
End Box.

(** The setters of a container, dispatched on its class. *)
Module Setters.
(** The justification string of the container. *)
Definition justificationString (b : AxisBoxContainer) : string :=
  match b with
  | RowBox r => Row._hJustification r
  | ColumnBox c => Column._wJustification c
  end.

(** What [damageAll] would report now. *)
Definition damageAll (b : AxisBoxContainer) : Notification :=
  match b with
  | RowBox r => Row.damageAll r
  | ColumnBox c => Column.damageAll c
  end.

(** [set hJustification(v)] of a row, [set wJustification(v)] of a column. *)
Definition set_justification (v : string) (b : AxisBoxContainer)
    : AxisBoxContainer * list Notification :=
  match b with
  | RowBox r => let '(r, ns) := Row.set_hJustification v r in (RowBox r, ns)
  | ColumnBox c => let '(c, ns) := Column.set_wJustification v c in (ColumnBox c, ns)
  end.

(** [set w(v)] of a row, [set h(v)] of a column. *)
Definition set_primarySize (hp : Heap) (v : Q) (b : AxisBoxContainer)
    : Heap * AxisBoxContainer * list Notification :=
  match b with
  | RowBox r =>
      let '(hp, r, ns) := Row.set_w_notifying hp v r in (hp, RowBox r, ns)
  | ColumnBox c =>
      let '(hp, c, ns) := Column.set_h_notifying hp v c in (hp, ColumnBox c, ns)
  end.
End Setters.

(* ================================================================== *)
(** ** Vocabulary of the properties *)

(** The sum of [f] over a list. *)
Definition sumQ {A : Type} (f : A -> Q) (l : list A) : Q :=
  foldr (fun a s => f a + s) 0 l.

(** The sum of [f] over a list, where a term may be [+Infinity]. *)
Definition sumX {A : Type} (f : A -> xQ) (l : list A) : xQ :=
  foldr (fun a s => xadd (f a) s) (Fin 0) l.

(** The maximum of [f] over a list, 0 for the empty list. *)
Fixpoint maxQ {A : Type} (f : A -> Q) (l : list A) : Q :=
  match l with
  | [] => 0
  | a :: rest =>
      match rest with
      | [] => f a
      | _ :: _ => Math.max (f a) (maxQ f rest)
      end
  end.

(** The maximum of [f] over a list, where a term may be [+Infinity]; 0 for
    the empty list. *)
Fixpoint maxX {A : Type} (f : A -> xQ) (l : list A) : xQ :=
  match l with
  | [] => Fin 0
  | a :: rest =>
      match rest with
      | [] => f a
      | _ :: _ => xmax (f a) (maxX f rest)
      end
  end.

(** The spring and the non-spring children. *)
Definition springs (its : list Axis.Item) : list Axis.Item :=
  List.filter Axis.spring its.
Definition nonSprings (its : list Axis.Item) : list Axis.Item :=
  List.filter (fun it => negb (Axis.spring it)) its.

(** Both configurations of a child satisfy the invariant of the data model. *)
Definition wfItem (hp : Heap) (it : Axis.Item) : Prop :=
  SizeConfig.wf (deref hp (Axis.pcfg it)) /\ SizeConfig.wf (deref hp (Axis.ccfg it)).


(** What [_adjustChildren] does to one child, given the measurements
    [(natSum, availCompr, numSprings)] of all children and the primary-axis
    size of the container. *)
Definition adjust_item (hp : Heap) (measured : Q * Q * Q) (size : Q) (it : Axis.Item)
    : Axis.Item :=
  let '(natSum, availCompr, numSprings) := measured in
  let excess := size - natSum in
  if Qle_bool 0 excess then
    if Qeq_bool numSprings 0 then it
    else Axis.expand_item (excess / numSprings) it
  else
    let it := Axis.expand_item 0 it in
    if Qeq_bool availCompr 0 then it
    else Axis.compress_item hp (Math.min availCompr (- excess)) availCompr it.

(** Two lists of children that a sizing or measuring loop cannot tell
    apart: the same spring flags and the same configuration values, in
    heaps [hp] and [hp']. *)
Definition similar (hp hp' : Heap) (its its' : list Axis.Item) : Prop :=
  Forall2 (fun it it' =>
             Axis.spring it' = Axis.spring it /\
             deref hp' (Axis.pcfg it') = deref hp (Axis.pcfg it) /\
             deref hp' (Axis.ccfg it') = deref hp (Axis.ccfg it))
          its its'.

(** Heap [hp'] holds every object of [hp], unchanged. *)
Definition extends (hp hp' : Heap) : Prop :=
  (length hp <= length hp')%nat /\
  forall l, (l < length hp)%nat -> deref hp' l = deref hp l.






(* ================================================================== *)
(** ** Example states *)

Module Examples.
(** Configurations: 0 and 1 belong to the container; 2 and 3 are on the
    primary axis of two compressible children, 4 and 5 on their cross
    axis; 6 and 7 are those of a spring. *)
Definition heap : Heap :=
  [ SizeConfig.fixed 10; SizeConfig.elastic 13;
    SizeConfig.mk 8 2 (Fin 8); SizeConfig.mk 8 4 (Fin 8);
    SizeConfig.fixed 5; SizeConfig.fixed 7;
    SizeConfig.elastic 0; SizeConfig.elastic 0 ].

(** Children of a row: 8 wide at their natural size, 5 and 7 high. *)
Definition childA : DrawnObject.t := DrawnObject.mk false 0 0 8 5 2%nat 4%nat.
Definition childB : DrawnObject.t := DrawnObject.mk false 0 0 8 7 3%nat 5%nat.
Definition spring : DrawnObject.t := DrawnObject.mk true 0 0 0 0 6%nat 7%nat.

(** Children of a column: 8 high at their natural size, 5 and 7 wide. *)
Definition childA' : DrawnObject.t := DrawnObject.mk false 0 0 5 8 4%nat 2%nat.
Definition childB' : DrawnObject.t := DrawnObject.mk false 0 0 7 8 5%nat 3%nat.
Definition spring' : DrawnObject.t := DrawnObject.mk true 0 0 0 0 7%nat 6%nat.

(** A row of width 10 for 16 of natural width: a shortfall of 6 with 10
    of compressibility. *)
Definition tightRow : Row.t :=
  Row.mk 0 0 10 13 0%nat 1%nat "center" [childA; childB].

(** A row of width 100 with a spring between the two children. *)
Definition wideRow : Row.t :=
  Row.mk 0 0 100 13 0%nat 1%nat "bottom" [childA; spring; childB].

(** A column of height 100 with a spring between the two children. *)
Definition wideColumn : Column.t :=
  Column.mk 0 0 13 100 1%nat 0%nat "right" [childA'; spring'; childB'].

(** The tight row after a placement at width 10, then widened to 26
    through its width setter. *)
Definition relaidRow : Heap * Row.t :=
  let '(hp, r) := Row._completeLocalLayout heap tightRow in
  Row.set_w hp 26 r.

(** A column of height 5 with a spring and two incompressible children
    (their primary configurations are the fixed 5 and 7). *)
Definition stiffColumn : Column.t :=
  Column.mk 0 0 13 5 1%nat 0%nat "left"
    [DrawnObject.mk false 0 0 1 5 6%nat 4%nat;
     DrawnObject.mk true 0 0 3 3 7%nat 6%nat;
     DrawnObject.mk false 0 0 1 7 6%nat 5%nat].

(** Struts of width 20 and height 7, and a spring. *)
Definition strutHeap : Heap :=
  [ SizeConfig.fixed 100; SizeConfig.elastic 13;
    SizeConfig.fixed 20; SizeConfig.fixed 7;
    SizeConfig.elastic 0; SizeConfig.elastic 0 ].
Definition strut : DrawnObject.t := DrawnObject.mk false 0 0 20 7 2%nat 3%nat.
Definition strutRow : Row.t :=
  Row.mk 0 0 100 13 0%nat 1%nat "top"
    [strut; DrawnObject.mk true 0 0 0 0 4%nat 5%nat; strut].

(** A centred column of width 50 with one child of natural width 20. *)
Definition centredColumn : Column.t :=
  Column.mk 0 0 50 100 1%nat 0%nat "center" [strut].

End Examples.

(** More example states, over the heap of [Examples]. *)
Module MoreExamples.
End MoreExamples.

(* ================================================================== *)
(** ** Arithmetic of [Math.max], [Math.min] and the extended numbers *)

Lemma max_cases a b :
  (a < b /\ Math.max a b = b) \/ (b <= a /\ Math.max a b = a).
Proof. unfold Math.max. destruct (Qlt_le_dec a b); auto. Qed.

Lemma min_cases a b :
  (b < a /\ Math.min a b = b) \/ (a <= b /\ Math.min a b = a).
Proof. unfold Math.min. destruct (Qlt_le_dec b a); auto. Qed.

Ltac split_max_at a b :=
  let H := fresh in let E := fresh in
  destruct (max_cases a b) as [[H E]|[H E]]; rewrite E in *; clear E.
Ltac split_min_at a b :=
  let H := fresh in let E := fresh in
  destruct (min_cases a b) as [[H E]|[H E]]; rewrite E in *; clear E.

(** Case analysis on every [Math.max] and [Math.min] in sight. *)
Ltac split_max :=
  repeat match goal with
  | |- context [Math.max ?a ?b] => split_max_at a b
  | _ : context [Math.max ?a ?b] |- _ => split_max_at a b
  | |- context [Math.min ?a ?b] => split_min_at a b
  | _ : context [Math.min ?a ?b] |- _ => split_min_at a b
  end.

Lemma max_assoc a b c : Math.max (Math.max a b) c == Math.max a (Math.max b c).
Proof. split_max; lra. Qed.

Lemma max_compat a a' b b' : a == a' -> b == b' -> Math.max a b == Math.max a' b'.
Proof. intros; split_max; lra. Qed.


Lemma xeq_refl a : xeq a a.
Proof. destruct a; simpl; [reflexivity | exact I]. Qed.

Lemma xeq_trans a b c : xeq a b -> xeq b c -> xeq a c.
Proof. destruct a, b, c; simpl; try tauto. intros H1 H2; rewrite H1; exact H2. Qed.

Lemma xadd_assoc a b c : xeq (xadd (xadd a b) c) (xadd a (xadd b c)).
Proof. destruct a, b, c; simpl; auto; ring. Qed.

Lemma xadd_0_l a : xeq (xadd (Fin 0) a) a.
Proof. destruct a; simpl; auto; ring. Qed.

Lemma xmax_assoc a b c : xeq (xmax (xmax a b) c) (xmax a (xmax b c)).
Proof. destruct a, b, c; simpl; auto. apply max_assoc. Qed.

Lemma xmax_0_l a : xle (Fin 0) a -> xeq (xmax (Fin 0) a) a.
Proof. destruct a; simpl; auto. intros; split_max; lra. Qed.

Lemma xle_xmax_r a b c : xle a c -> xle a (xmax b c).
Proof. destruct a, b, c; simpl; auto. intros; split_max; lra. Qed.

(* ================================================================== *)
(** ** Sums and maxima over a list *)

Section Folds.
Context {A : Type}.

Lemma sumQ_cons (f : A -> Q) a l : sumQ f (a :: l) = f a + sumQ f l.
Proof. reflexivity. Qed.

Lemma sumQ_ext (f g : A -> Q) l :
  Forall (fun a => f a == g a) l -> sumQ f l == sumQ g l.
Proof.
  induction 1 as [|a l Ha Hl IH]; simpl; [reflexivity|]. rewrite Ha, IH. reflexivity.
Qed.

Lemma sumQ_scale (f : A -> Q) k l : sumQ (fun a => f a * k) l == sumQ f l * k.
Proof. induction l as [|a l IH]; simpl; [ring|]. rewrite IH. ring. Qed.

Lemma sumQ_const (k : Q) (l : list A) :
  sumQ (fun _ => k) l == inject_Z (Z.of_nat (length l)) * k.
Proof.
  induction l as [|a l IH]; [simpl; ring|].
  cbn [sumQ foldr length]. fold (sumQ (fun _ : A => k) l). rewrite IH.
  rewrite Nat2Z.inj_succ. unfold Z.succ. rewrite inject_Z_plus. ring.
Qed.

Lemma sumQ_map {B : Type} (f : B -> Q) (g : A -> B) l :
  sumQ f (map g l) = sumQ (fun a => f (g a)) l.
Proof.
  induction l as [|a l IH]; [reflexivity|].
  cbn [map sumQ foldr]. f_equal. exact IH.
Qed.

(** The maximum that a loop accumulates from [acc]. *)
Lemma maxQ_fold (f : A -> Q) l acc :
  l <> [] ->
  fold_left (fun m a => Math.max m (f a)) l acc == Math.max acc (maxQ f l).
Proof.
  revert acc; induction l as [|a l IH]; intros acc Hne; [congruence|].
  destruct l as [|b l]; [reflexivity|].
  change (fold_left (fun m a0 => Math.max m (f a0)) (a :: b :: l) acc)
    with (fold_left (fun m a0 => Math.max m (f a0)) (b :: l) (Math.max acc (f a))).
  rewrite IH by congruence.
  change (maxQ f (a :: b :: l)) with (Math.max (f a) (maxQ f (b :: l))).
  apply max_assoc.
Qed.

Lemma maxQ_nonneg (f : A -> Q) l : Forall (fun a => 0 <= f a) l -> 0 <= maxQ f l.
Proof.
  induction 1 as [|a l Ha Hl IH]; [simpl; lra|].
  destruct l as [|b l]; [exact Ha|].
  change (maxQ f (a :: b :: l)) with (Math.max (f a) (maxQ f (b :: l))).
  split_max; lra.
Qed.

Lemma maxQ_fold_0 (f : A -> Q) l :
  Forall (fun a => 0 <= f a) l ->
  fold_left (fun m a => Math.max m (f a)) l 0 == maxQ f l.
Proof.
  intros H. destruct l as [|a l]; [reflexivity|].
  rewrite maxQ_fold by congruence.
  pose proof (maxQ_nonneg f _ H). split_max; lra.
Qed.

Lemma maxQ_upper (f : A -> Q) l acc :
  acc <= fold_left (fun m a => Math.max m (f a)) l acc /\
  Forall (fun a => f a <= fold_left (fun m a => Math.max m (f a)) l acc) l.
Proof.
  revert acc; induction l as [|a l IH]; intros acc; simpl; [split; [lra|constructor]|].
  destruct (IH (Math.max acc (f a))) as [H1 H2]. split; [|constructor]; auto.
  - revert H1; split_max; lra.
  - revert H1; split_max; lra.
Qed.

Lemma maxX_fold (f : A -> xQ) l acc :
  l <> [] ->
  xeq (fold_left (fun m a => xmax m (f a)) l acc) (xmax acc (maxX f l)).
Proof.
  revert acc; induction l as [|a l IH]; intros acc Hne; [congruence|].
  destruct l as [|b l]; [apply xeq_refl|].
  change (fold_left (fun m a0 => xmax m (f a0)) (a :: b :: l) acc)
    with (fold_left (fun m a0 => xmax m (f a0)) (b :: l) (xmax acc (f a))).
  eapply xeq_trans; [apply IH; congruence|].
  change (maxX f (a :: b :: l)) with (xmax (f a) (maxX f (b :: l))).
  apply xmax_assoc.
Qed.

Lemma maxX_nonneg (f : A -> xQ) l :
  Forall (fun a => xle (Fin 0) (f a)) l -> xle (Fin 0) (maxX f l).
Proof.
  induction 1 as [|a l Ha Hl IH]; [simpl; lra|].
  destruct l as [|b l]; [exact Ha|].
  change (maxX f (a :: b :: l)) with (xmax (f a) (maxX f (b :: l))).
  apply xle_xmax_r, IH.
Qed.

Lemma maxX_fold_0 (f : A -> xQ) l :
  Forall (fun a => xle (Fin 0) (f a)) l ->
  xeq (fold_left (fun m a => xmax m (f a)) l (Fin 0)) (maxX f l).
Proof.
  intros H. destruct l as [|a l]; [apply xeq_refl|].
  eapply xeq_trans; [apply maxX_fold; congruence|].
  apply xmax_0_l, maxX_nonneg, H.
Qed.

Lemma sumQ_fold (f : A -> Q) l acc :
  fold_left (fun s a => s + f a) l acc == acc + sumQ f l.
Proof.
  revert acc; induction l as [|a l IH]; intros acc; simpl; [ring|].
  rewrite IH. unfold sumQ. ring.
Qed.

Lemma sumX_fold (f : A -> xQ) l acc :
  xeq (fold_left (fun s a => xadd s (f a)) l acc) (xadd acc (sumX f l)).
Proof.
  revert acc; induction l as [|a l IH]; intros acc; simpl.
  - destruct acc; simpl; auto; ring.
  - eapply xeq_trans; [apply IH|]. apply xadd_assoc.
Qed.
End Folds.

(* ================================================================== *)
(** ** The heap *)

Lemma deref_app_l hp more l :
  (l < length hp)%nat -> deref (hp ++ more) l = deref hp l.
Proof. intros H. unfold deref. rewrite lookup_app_l by exact H. reflexivity. Qed.

Lemma deref_alloc hp c : deref (hp ++ [c]) (length hp) = c.
Proof.
  unfold deref. rewrite lookup_app_r by reflexivity.
  rewrite Nat.sub_diag. reflexivity.
Qed.

Lemma deref_store_ne hp l l' v : l <> l' -> deref (store_nat hp l v) l' = deref hp l'.
Proof.
  intros H. unfold deref, store_nat. rewrite list_lookup_alter_ne by exact H.
  reflexivity.
Qed.







(* ================================================================== *)
(** ** Row.js and Column.js compute the algorithm of [Axis] *)

Section Refinement.
Variable hp : Heap.

Lemma Row_sizing_loop cs a b c d e f :
  Row.sizing_loop hp cs a b c d e f =
  let '(p, x) := Axis.sizing_loop hp (map RowView.item cs) a b c d e f in (x, p).
Proof.
  revert a b c d e f; induction cs as [|child cs IH]; intros; [reflexivity|].
  cbn [Row.sizing_loop map Axis.sizing_loop]. apply IH.
Qed.

Lemma Column_sizing_loop cs a b c d e f :
  Column.sizing_loop hp cs a b c d e f =
  Axis.sizing_loop hp (map ColumnView.item cs) d e f a b c.
Proof.
  revert a b c d e f; induction cs as [|child cs IH]; intros; [reflexivity|].
  cbn [Column.sizing_loop map Axis.sizing_loop]. apply IH.
Qed.

Lemma Row_measure_loop cs a b c :
  Row.measure_loop hp cs a b c = Axis.measure_loop hp (map RowView.item cs) a b c.
Proof.
  revert a b c; induction cs as [|child cs IH]; intros; [reflexivity|].
  cbn [Row.measure_loop map Axis.measure_loop].
  change (Axis.spring (RowView.item child)) with (DrawnObject.isSpring child).
  destruct (DrawnObject.isSpring child); apply IH.
Qed.

Lemma Column_measure_loop cs a b c :
  Column.measure_loop hp cs a b c = Axis.measure_loop hp (map ColumnView.item cs) a b c.
Proof.
  revert a b c; induction cs as [|child cs IH]; intros; [reflexivity|].
  cbn [Column.measure_loop map Axis.measure_loop].
  change (Axis.spring (ColumnView.item child)) with (DrawnObject.isSpring child).
  destruct (DrawnObject.isSpring child); apply IH.
Qed.

Lemma Row_heights_loop cs m :
  (let '(cs', m') := Row.heights_loop hp cs m in (map RowView.item cs', m')) =
  Axis.cross_loop hp (map RowView.item cs) m.
Proof.
  revert m; induction cs as [|child cs IH]; intros; [reflexivity|].
  cbn [Row.heights_loop map Axis.cross_loop].
  match goal with |- context [Row.heights_loop hp cs ?a] => set (m1 := a) end.
  match goal with |- context [Axis.cross_loop hp _ ?a] => change a with m1 end.
  rewrite <- (IH m1). destruct (Row.heights_loop hp cs m1) as [cs' m']. reflexivity.
Qed.

Lemma Column_widths_loop cs m :
  (let '(cs', m') := Column.widths_loop hp cs m in (map ColumnView.item cs', m')) =
  Axis.cross_loop hp (map ColumnView.item cs) m.
Proof.
  revert m; induction cs as [|child cs IH]; intros; [reflexivity|].
  cbn [Column.widths_loop map Axis.cross_loop].
  match goal with |- context [Column.widths_loop hp cs ?a] => set (m1 := a) end.
  match goal with |- context [Axis.cross_loop hp _ ?a] => change a with m1 end.
  rewrite <- (IH m1). destruct (Column.widths_loop hp cs m1) as [cs' m']. reflexivity.
Qed.

Lemma Row_stack_loop this cs pos :
  map RowView.item (Row.stack_loop this cs pos) =
  Axis.stack_loop (RowView.justification (Row._hJustification this)) (Row.h this)
    (map RowView.item cs) pos.
Proof.
  revert pos; induction cs as [|child cs IH]; intros; [reflexivity|].
  cbn [Row.stack_loop map Axis.stack_loop]. rewrite IH.
  unfold RowView.justification.
  destruct (String.eqb _ "top"); [reflexivity|].
  destruct (String.eqb _ "center"); [reflexivity|].
  destruct (String.eqb _ "bottom"); reflexivity.
Qed.

Lemma Column_stack_loop this cs pos :
  map ColumnView.item (Column.stack_loop this cs pos) =
  Axis.stack_loop (ColumnView.justification (Column._wJustification this))
    (Column.w this) (map ColumnView.item cs) pos.
Proof.
  revert pos; induction cs as [|child cs IH]; intros; [reflexivity|].
  cbn [Column.stack_loop map Axis.stack_loop]. rewrite IH.
  unfold ColumnView.justification.
  destruct (String.eqb _ "left"); [reflexivity|].
  destruct (String.eqb _ "center"); [reflexivity|].
  destruct (String.eqb _ "right"); reflexivity.
Qed.

Lemma Row_expand excess numSprings this :
  map RowView.item (Row.children (Row._expandChildSprings excess numSprings this)) =
  Axis.expand excess numSprings (map RowView.item (Row.children this)).
Proof.
  unfold Row._expandChildSprings, Axis.expand.
  destruct (Qeq_bool numSprings 0); [reflexivity|].
  cbn [Row.with_children Row.children]. rewrite !map_map.
  apply map_ext; intros child. unfold Axis.expand_item.
  change (Axis.spring (RowView.item child)) with (DrawnObject.isSpring child).
  destruct (DrawnObject.isSpring child); reflexivity.
Qed.

Lemma Column_expand excess numSprings this :
  map ColumnView.item (Column.children (Column._expandChildSprings excess numSprings this)) =
  Axis.expand excess numSprings (map ColumnView.item (Column.children this)).
Proof.
  unfold Column._expandChildSprings, Axis.expand.
  destruct (Qeq_bool numSprings 0); [reflexivity|].
  cbn [Column.with_children Column.children]. rewrite !map_map.
  apply map_ext; intros child. unfold Axis.expand_item.
  change (Axis.spring (ColumnView.item child)) with (DrawnObject.isSpring child).
  destruct (DrawnObject.isSpring child); reflexivity.
Qed.

Lemma Row_compress shortfall availCompr this :
  map RowView.item (Row.children (Row._compressChildren hp shortfall availCompr this)) =
  Axis.compress hp shortfall availCompr (map RowView.item (Row.children this)).
Proof.
  unfold Row._compressChildren, Axis.compress.
  cbn [Row.with_children Row.children]. rewrite !map_map.
  apply map_ext; intros child. unfold Axis.compress_item.
  change (Axis.spring (RowView.item child)) with (DrawnObject.isSpring child).
  destruct (DrawnObject.isSpring child); reflexivity.
Qed.

Lemma Column_compress shortfall availCompr this :
  map ColumnView.item
    (Column.children (Column._compressChildren hp shortfall availCompr this)) =
  Axis.compress hp shortfall availCompr (map ColumnView.item (Column.children this)).
Proof.
  unfold Column._compressChildren, Axis.compress.
  cbn [Column.with_children Column.children]. rewrite !map_map.
  apply map_ext; intros child. unfold Axis.compress_item.
  change (Axis.spring (ColumnView.item child)) with (DrawnObject.isSpring child).
  destruct (DrawnObject.isSpring child); reflexivity.
Qed.

Lemma Row_adjust this :
  map RowView.item (Row.children (Row._adjustChildren hp this)) =
  Axis.adjust hp (Row.w this) (map RowView.item (Row.children this)).
Proof.
  unfold Row._adjustChildren, Axis.adjust, Row._measureChildren, Axis.measure.
  rewrite Row_measure_loop.
  destruct (Axis.measure_loop hp _ 0 0 0) as [[natSum availCompr] numSprings].
  destruct (Qle_bool 0 (Row.w this - natSum)); [apply Row_expand|].
  assert (Hz : map RowView.item
            (map (fun child => if DrawnObject.isSpring child
                               then DrawnObject.set_w 0 child else child)
                 (Row.children this)) =
          map (Axis.expand_item 0) (map RowView.item (Row.children this))).
  { rewrite !map_map. apply map_ext; intros child. unfold Axis.expand_item.
    change (Axis.spring (RowView.item child)) with (DrawnObject.isSpring child).
    destruct (DrawnObject.isSpring child); reflexivity. }
  destruct (Qeq_bool availCompr 0); [exact Hz|].
  rewrite Row_compress. cbn [Row.with_children Row.children Row.w].
  rewrite Hz. reflexivity.
Qed.

Lemma Column_adjust this :
  map ColumnView.item (Column.children (Column._adjustChildren hp this)) =
  Axis.adjust hp (Column.h this) (map ColumnView.item (Column.children this)).
Proof.
  unfold Column._adjustChildren, Axis.adjust, Column._measureChildren, Axis.measure.
  rewrite Column_measure_loop.
  destruct (Axis.measure_loop hp _ 0 0 0) as [[natSum availCompr] numSprings].
  destruct (Qle_bool 0 (Column.h this - natSum)); [apply Column_expand|].
  assert (Hz : map ColumnView.item
            (map (fun child => if DrawnObject.isSpring child
                               then DrawnObject.set_h 0 child else child)
                 (Column.children this)) =
          map (Axis.expand_item 0) (map ColumnView.item (Column.children this))).
  { rewrite !map_map. apply map_ext; intros child. unfold Axis.expand_item.
    change (Axis.spring (ColumnView.item child)) with (DrawnObject.isSpring child).
    destruct (DrawnObject.isSpring child); reflexivity. }
  destruct (Qeq_bool availCompr 0); [exact Hz|].
  rewrite Column_compress. cbn [Column.with_children Column.children Column.h].
  rewrite Hz. reflexivity.
Qed.
End Refinement.

Lemma Row_object_item cs : map RowView.object (map RowView.item cs) = cs.
Proof.
  rewrite map_map. rewrite <- (map_id cs) at 2.
  apply map_ext; intros []; reflexivity.
Qed.

Lemma Column_object_item cs : map ColumnView.object (map ColumnView.item cs) = cs.
Proof.
  rewrite map_map. rewrite <- (map_id cs) at 2.
  apply map_ext; intros []; reflexivity.
Qed.

Lemma Row_adjust_frame hp this :
  Row._adjustChildren hp this =
  Row.with_children (Row.children (Row._adjustChildren hp this)) this.
Proof.
  unfold Row._adjustChildren, Row._expandChildSprings, Row._compressChildren.
  destruct (Row._measureChildren hp this) as [[natSum availCompr] numSprings].
  destruct this; repeat (match goal with |- context [if ?c then _ else _] => destruct c end);
    reflexivity.
Qed.

Lemma Column_adjust_frame hp this :
  Column._adjustChildren hp this =
  Column.with_children (Column.children (Column._adjustChildren hp this)) this.
Proof.
  unfold Column._adjustChildren, Column._expandChildSprings, Column._compressChildren.
  destruct (Column._measureChildren hp this) as [[natSum availCompr] numSprings].
  destruct this; repeat (match goal with |- context [if ?c then _ else _] => destruct c end);
    reflexivity.
Qed.

Lemma Row_complete hp this :
  Row.children this <> [] ->
  Row._completeLocalLayout hp this =
  let '(its, cMax) :=
    Axis.place hp (RowView.justification (Row._hJustification this)) (Row.w this)
      (map RowView.item (Row.children this)) in
  (store_nat hp (Row._hConfig this) cMax,
   Row.mk (Row.x this) (Row.y this) (Row.w this) cMax
     (Row._wConfig this) (Row._hConfig this) (Row._hJustification this)
     (map RowView.object its)).
Proof.
  intros Hne. unfold Row._completeLocalLayout, Axis.place.
  destruct (Row.children this) as [|c0 cs0] eqn:Hcs; [congruence|].
  cbn [length Nat.eqb]. rewrite <- Hcs. clear Hne.
  rewrite <- (Row_adjust hp this).
  rewrite <- (Row_heights_loop hp (Row.children (Row._adjustChildren hp this)) 0).
  destruct (Row.heights_loop hp _ 0) as [cs m].
  rewrite (Row_adjust_frame hp this).
  cbn [Row.with_children Row.set_h Row.children Row._hConfig Row.x Row.y Row.w Row.h
       Row._wConfig Row._hJustification].
  rewrite <- (Row_object_item (Row.stack_loop _ cs 0)).
  rewrite Row_stack_loop. reflexivity.
Qed.

Lemma Column_complete hp this :
  Column.children this <> [] ->
  Column._completeLocalLayout hp this =
  let '(its, cMax) :=
    Axis.place hp (ColumnView.justification (Column._wJustification this))
      (Column.h this) (map ColumnView.item (Column.children this)) in
  (store_nat hp (Column._wConfig this) cMax,
   Column.mk (Column.x this) (Column.y this) cMax (Column.h this)
     (Column._wConfig this) (Column._hConfig this) (Column._wJustification this)
     (map ColumnView.object its)).
Proof.
  intros Hne. unfold Column._completeLocalLayout, Axis.place.
  destruct (Column.children this) as [|c0 cs0] eqn:Hcs; [congruence|].
  cbn [length Nat.eqb]. rewrite <- Hcs. clear Hne.
  rewrite <- (Column_adjust hp this).
  rewrite <- (Column_widths_loop hp (Column.children (Column._adjustChildren hp this)) 0).
  destruct (Column.widths_loop hp _ 0) as [cs m].
  rewrite (Column_adjust_frame hp this).
  cbn [Column.with_children Column.set_w Column.children Column._hConfig Column.x
       Column.y Column.w Column.h Column._wConfig Column._wJustification].
  rewrite <- (Column_object_item (Column.stack_loop _ cs 0)).
  rewrite Column_stack_loop. reflexivity.
Qed.



Lemma Row_sizing hp this :
  Row._doLocalSizing hp this =
  let '(p, c) :=
    Axis.sizing_loop hp (map RowView.item (Row.children this)) 0 0 (Fin 0) 0 0 (Fin 0) in
  ((hp ++ [c]) ++ [p],
   Row.mk (Row.x this) (Row.y this) (Row.w this) (Row.h this)
     (length (hp ++ [c])) (length hp) (Row._hJustification this) (Row.children this)).
Proof.
  unfold Row._doLocalSizing. rewrite Row_sizing_loop.
  destruct (Axis.sizing_loop hp _ 0 0 (Fin 0) 0 0 (Fin 0)) as [p c]. reflexivity.
Qed.

Lemma Column_sizing hp this :
  Column._doLocalSizing hp this =
  let '(p, c) :=
    Axis.sizing_loop hp (map ColumnView.item (Column.children this))
      0 0 (Fin 0) 0 0 (Fin 0) in
  ((hp ++ [p]) ++ [c],
   Column.mk (Column.x this) (Column.y this) (Column.w this) (Column.h this)
     (length (hp ++ [p])) (length hp) (Column._wJustification this)
     (Column.children this)).
Proof.
  unfold Column._doLocalSizing. rewrite Column_sizing_loop.
  destruct (Axis.sizing_loop hp _ 0 0 (Fin 0) 0 0 (Fin 0)) as [p c]. reflexivity.
Qed.

(** The methods of a container in terms of [Axis]. *)

Lemma Box_measure hp b : Box._measureChildren hp b = Axis.measure hp (Box.items b).
Proof. destruct b; [apply Row_measure_loop | apply Column_measure_loop]. Qed.

Lemma Box_expand excess numSprings b :
  Box.items (Box._expandChildSprings excess numSprings b) =
  Axis.expand excess numSprings (Box.items b).
Proof. destruct b; [apply Row_expand | apply Column_expand]. Qed.

Lemma Box_compress hp shortfall availCompr b :
  Box.items (Box._compressChildren hp shortfall availCompr b) =
  Axis.compress hp shortfall availCompr (Box.items b).
Proof. destruct b; [apply Row_compress | apply Column_compress]. Qed.

Lemma Box_adjust hp b :
  Box.items (Box._adjustChildren hp b) =
  Axis.adjust hp (Box.primarySize b) (Box.items b).
Proof. destruct b; [apply Row_adjust | apply Column_adjust]. Qed.

Lemma Row_item_object its : map RowView.item (map RowView.object its) = its.
Proof.
  rewrite map_map. rewrite <- (map_id its) at 2.
  apply map_ext; intros []; reflexivity.
Qed.

Lemma Column_item_object its : map ColumnView.item (map ColumnView.object its) = its.
Proof.
  rewrite map_map. rewrite <- (map_id its) at 2.
  apply map_ext; intros []; reflexivity.
Qed.

Lemma Box_items_nil b : Box.items b = [] <-> Box.children b = [].
Proof.
  destruct b; cbn [Box.items Box.children];
    (split; [apply map_eq_nil | intros ->; reflexivity]).
Qed.

Lemma Box_complete hp b hp' b' :
  Box.children b <> [] ->
  Box._completeLocalLayout hp b = (hp', b') ->
  (Box.items b', Box.crossSize b') =
    Axis.place hp (Box.justification b) (Box.primarySize b) (Box.items b) /\
  hp' = store_nat hp (Box.crossConfig b) (Box.crossSize b') /\
  Box.primarySize b' = Box.primarySize b /\
  Box.primaryConfig b' = Box.primaryConfig b /\
  Box.crossConfig b' = Box.crossConfig b /\
  Box.justification b' = Box.justification b.
Proof.
  intros Hne H. destruct b as [r|c]; cbn [Box._completeLocalLayout] in H.
  - rewrite (Row_complete hp r Hne) in H.
    cbn [Box.items Box.crossSize Box.justification Box.primarySize Box.crossConfig
         Box.primaryConfig].
    destruct (Axis.place hp _ _ _) as [its m]. inversion H; subst; clear H.
    cbn [Box.items Box.crossSize Box.justification Box.primarySize Box.crossConfig
         Box.primaryConfig Row.children Row.h Row.w Row._wConfig Row._hConfig
         Row._hJustification].
    rewrite Row_item_object. repeat split.
  - rewrite (Column_complete hp c Hne) in H.
    cbn [Box.items Box.crossSize Box.justification Box.primarySize Box.crossConfig
         Box.primaryConfig].
    destruct (Axis.place hp _ _ _) as [its m]. inversion H; subst; clear H.
    cbn [Box.items Box.crossSize Box.justification Box.primarySize Box.crossConfig
         Box.primaryConfig Column.children Column.h Column.w Column._wConfig
         Column._hConfig Column._wJustification].
    rewrite Column_item_object. repeat split.
Qed.


(* ================================================================== *)
(** ** Properties of the algorithm on one axis *)

Section AxisProperties.
Import Axis.
Variable hp : Heap.

Lemma springs_map (g : Item -> Item) its :
  (forall it, spring (g it) = spring it) ->
  springs (map g its) = map g (springs its).
Proof.
  intros Hg. unfold springs. induction its as [|it its IH]; [reflexivity|].
  cbn [map List.filter]. rewrite Hg, IH. destruct (spring it); reflexivity.
Qed.

Lemma nonSprings_map (g : Item -> Item) its :
  (forall it, spring (g it) = spring it) ->
  nonSprings (map g its) = map g (nonSprings its).
Proof.
  intros Hg. unfold nonSprings. induction its as [|it its IH]; [reflexivity|].
  cbn [map List.filter]. rewrite Hg, IH. destruct (spring it); reflexivity.
Qed.

Lemma Forall_nonSprings (P : Item -> Prop) its :
  Forall (fun it => spring it = false -> P it) its -> Forall P (nonSprings its).
Proof.
  unfold nonSprings. induction 1 as [|it its H Hl IH]; [constructor|].
  cbn [List.filter]. destruct (spring it); cbn [negb]; auto.
Qed.

Lemma Forall_springs (P : Item -> Prop) its :
  Forall (fun it => spring it = true -> P it) its -> Forall P (springs its).
Proof.
  unfold springs. induction 1 as [|it its H Hl IH]; [constructor|].
  cbn [List.filter]. destruct (spring it); auto.
Qed.

(** *** [_measureChildren] *)

Lemma measure_loop_spec its a b c :
  (measure_loop hp its a b c).1.1 == a + sumQ (natP hp) (nonSprings its) /\
  (measure_loop hp its a b c).1.2 ==
    b + sumQ (fun it => natP hp it - minP hp it) (nonSprings its) /\
  (measure_loop hp its a b c).2 == c + inject_Z (Z.of_nat (length (springs its))).
Proof.
  revert a b c; induction its as [|it its IH]; intros a b c.
  - cbn. repeat split; ring.
  - cbn [measure_loop]. unfold nonSprings, springs. cbn [List.filter].
    destruct (spring it); cbn [negb].
    + destruct (IH a b (c + 1)) as (H1 & H2 & H3). repeat split; auto.
      rewrite H3. cbn [length]. rewrite Nat2Z.inj_succ. unfold Z.succ.
      rewrite inject_Z_plus. unfold springs. change (inject_Z 1) with 1. ring.
    + destruct (IH (a + natP hp it) (b + (natP hp it - minP hp it)) c)
        as (H1 & H2 & H3).
      repeat split; auto.
      * rewrite H1. fold (nonSprings its). rewrite sumQ_cons. ring.
      * rewrite H2. fold (nonSprings its). rewrite sumQ_cons. ring.
Qed.

Lemma measure_spec its natSum availCompr numSprings :
  measure hp its = (natSum, availCompr, numSprings) ->
  natSum == sumQ (natP hp) (nonSprings its) /\
  availCompr == sumQ (fun it => natP hp it - minP hp it) (nonSprings its) /\
  numSprings == inject_Z (Z.of_nat (length (springs its))).
Proof.
  intros H. destruct (measure_loop_spec its 0 0 0) as (H1 & H2 & H3).
  unfold measure in H. rewrite H in H1, H2, H3. cbn in H1, H2, H3.
  repeat split; [rewrite H1 | rewrite H2 | rewrite H3]; ring.
Qed.

(** *** [_compressChildren] *)

Lemma compress_item_spring shortfall availCompr it :
  spring (compress_item hp shortfall availCompr it) = spring it.
Proof. unfold compress_item. destruct (spring it) eqn:E; cbn [negb]; exact E. Qed.

Lemma expand_item_spring eachExcess it :
  spring (expand_item eachExcess it) = spring it.
Proof. unfold expand_item. destruct (spring it) eqn:E; exact E. Qed.

Lemma compress_item_natP shortfall availCompr it :
  natP hp (compress_item hp shortfall availCompr it) = natP hp it.
Proof. unfold compress_item. destruct (spring it); reflexivity. Qed.

Lemma compress_item_psize shortfall availCompr it :
  spring it = false ->
  psize (compress_item hp shortfall availCompr it) =
  Math.max (minP hp it)
    (natP hp it - (natP hp it - minP hp it) / availCompr * shortfall).
Proof. intros H. unfold compress_item. rewrite H. reflexivity. Qed.

Lemma compress_share shortfall availCompr c :
  0 <= c -> 0 < shortfall -> shortfall <= availCompr ->
  c / availCompr * shortfall <= c.
Proof.
  intros Hc HS HA.
  assert (H1 : shortfall / availCompr <= 1).
  { apply Qle_shift_div_r; lra. }
  assert (E : c / availCompr * shortfall == c * (shortfall / availCompr)).
  { field. lra. }
  rewrite E. nra.
Qed.

Lemma compress_item_exact shortfall availCompr it :
  spring it = false -> minP hp it <= natP hp it ->
  0 < shortfall -> shortfall <= availCompr ->
  natP hp it - psize (compress_item hp shortfall availCompr it) ==
  (natP hp it - minP hp it) * (shortfall / availCompr).
Proof.
  intros Hs Hwf HS HA. rewrite compress_item_psize by exact Hs.
  pose proof (compress_share shortfall availCompr (natP hp it - minP hp it)
                ltac:(lra) HS HA) as Hle.
  assert (E : (natP hp it - minP hp it) / availCompr * shortfall ==
              (natP hp it - minP hp it) * (shortfall / availCompr)).
  { field. lra. }
  split_max; lra.
Qed.

Lemma compress_conserves shortfall availCompr its :
  Forall (fun it => spring it = false -> minP hp it <= natP hp it) its ->
  0 < shortfall -> shortfall <= availCompr ->
  availCompr == sumQ (fun it => natP hp it - minP hp it) (nonSprings its) ->
  sumQ (fun it => natP hp it - psize it)
       (nonSprings (compress hp shortfall availCompr its)) == shortfall.
Proof.
  intros Hwf HS HA HE. unfold compress.
  rewrite nonSprings_map by apply compress_item_spring.
  rewrite sumQ_map.
  rewrite (sumQ_ext _ (fun it => (natP hp it - minP hp it) * (shortfall / availCompr))).
  - rewrite sumQ_scale, <- HE. field. lra.
  - assert (Hns : Forall (fun it => spring it = false) (nonSprings its)).
    { unfold nonSprings. apply List.Forall_forall. intros it Hin.
      apply filter_In in Hin. destruct Hin as [_ Hin].
      destruct (spring it); [discriminate | reflexivity]. }
    pose proof (Forall_nonSprings _ _ Hwf) as Hwf'.
    clear - Hns Hwf' HS HA. induction Hns as [|it l Hit Hl IH]; [constructor|].
    inversion Hwf'; subst. constructor; [|auto].
    rewrite compress_item_natP. apply compress_item_exact; auto.
Qed.

Lemma compress_min shortfall availCompr its :
  Forall (fun it => spring it = false -> minP hp it <= psize it)
         (compress hp shortfall availCompr its).
Proof.
  unfold compress. apply List.Forall_forall. intros it' Hin.
  apply in_map_iff in Hin. destruct Hin as (it & <- & _).
  unfold compress_item. destruct (spring it) eqn:E; cbn [negb]; intros H;
    [congruence|].
  cbn [psize set_psize]. unfold minP. cbn [pcfg set_psize].
  split_max; lra.
Qed.

(** *** [_expandChildSprings] *)

Lemma expand_nonzero excess numSprings its :
  ~ numSprings == 0 ->
  expand excess numSprings its = map (expand_item (excess / numSprings)) its.
Proof.
  intros H. unfold expand. destruct (Qeq_bool numSprings 0) eqn:E; [|reflexivity].
  apply Qeq_bool_iff in E. contradiction.
Qed.

Lemma expand_sum eachExcess its :
  sumQ psize (springs (map (expand_item eachExcess) its)) ==
  inject_Z (Z.of_nat (length (springs its))) * eachExcess.
Proof.
  rewrite springs_map by apply expand_item_spring.
  rewrite sumQ_map, <- sumQ_const. apply sumQ_ext.
  apply Forall_springs, List.Forall_forall. intros it _ H.
  unfold expand_item. rewrite H. reflexivity.
Qed.

(** *** [_adjustChildren] *)

Lemma adjust_excess size its natSum availCompr numSprings :
  measure hp its = (natSum, availCompr, numSprings) ->
  0 <= size - natSum ->
  adjust hp size its = expand (size - natSum) numSprings its.
Proof.
  intros Hm He. unfold adjust. rewrite Hm.
  apply Qle_bool_iff in He. rewrite He. reflexivity.
Qed.

Lemma adjust_shortfall size its natSum availCompr numSprings :
  measure hp its = (natSum, availCompr, numSprings) ->
  size - natSum < 0 ->
  adjust hp size its =
  if Qeq_bool availCompr 0 then map (expand_item 0) its
  else compress hp (Math.min availCompr (- (size - natSum))) availCompr
         (map (expand_item 0) its).
Proof.
  intros Hm He. unfold adjust. rewrite Hm.
  destruct (Qle_bool 0 (size - natSum)) eqn:E; [|reflexivity].
  apply Qle_bool_iff in E. lra.
Qed.

Lemma expand_nonSpring_kept excess numSprings its :
  Forall2 (fun it it' => spring it = false -> it' = it) its
          (expand excess numSprings its).
Proof.
  unfold expand. destruct (Qeq_bool numSprings 0).
  - induction its; constructor; auto.
  - induction its as [|it its IH]; constructor; auto.
    unfold expand_item. intros ->. reflexivity.
Qed.
End AxisProperties.

Section PlacementProperties.
Import Axis.
Variable hp : Heap.

(** *** The first loop of [_completeLocalLayout] *)

Lemma cross_loop_items its cMax :
  (cross_loop hp its cMax).1 = map (fun it => set_csize (natC hp it) it) its.
Proof.
  revert cMax; induction its as [|it its IH]; intros cMax; [reflexivity|].
  cbn [cross_loop map].
  match goal with |- context [cross_loop hp its ?a] => specialize (IH a);
    destruct (cross_loop hp its a) end.
  cbn [fst] in *. rewrite IH. reflexivity.
Qed.

Lemma cross_loop_max its cMax :
  (cross_loop hp its cMax).2 =
  fold_left (fun m it => Math.max m (natC hp it)) its cMax.
Proof.
  revert cMax; induction its as [|it its IH]; intros cMax; [reflexivity|].
  cbn [cross_loop fold_left].
  match goal with |- context [cross_loop hp its ?a] => specialize (IH a);
    destruct (cross_loop hp its a) end.
  cbn [snd] in *. rewrite IH. reflexivity.
Qed.

(** *** The second loop of [_completeLocalLayout] *)



Lemma stack_loop_kept j crossSize its pos :
  Forall2 (fun it it' =>
             spring it' = spring it /\ psize it' = psize it /\
             csize it' = csize it /\ pcfg it' = pcfg it /\ ccfg it' = ccfg it)
          its (stack_loop j crossSize its pos).
Proof.
  revert pos; induction its as [|it its IH]; intros pos; constructor; auto.
  destruct j; repeat split.
Qed.



End PlacementProperties.

(** *** Running the placement again changes nothing *)

Section Idempotence.
Import Axis.

Lemma adjust_map hp size its :
  adjust hp size its = map (adjust_item hp (measure hp its) size) its.
Proof.
  unfold adjust, adjust_item, expand, compress.
  destruct (measure hp its) as [[natSum availCompr] numSprings].
  destruct (Qle_bool 0 (size - natSum)).
  - destruct (Qeq_bool numSprings 0); [symmetry; apply map_id | reflexivity].
  - destruct (Qeq_bool availCompr 0); [reflexivity | apply map_map].
Qed.

Lemma adjust_item_kept hp measured size it :
  spring (adjust_item hp measured size it) = spring it /\
  ppos (adjust_item hp measured size it) = ppos it /\
  cpos (adjust_item hp measured size it) = cpos it /\
  csize (adjust_item hp measured size it) = csize it /\
  pcfg (adjust_item hp measured size it) = pcfg it /\
  ccfg (adjust_item hp measured size it) = ccfg it.
Proof.
  unfold adjust_item, expand_item, compress_item.
  destruct measured as [[natSum availCompr] numSprings].
  destruct (Qle_bool 0 (size - natSum)), (Qeq_bool numSprings 0),
    (Qeq_bool availCompr 0), (spring it) eqn:E; cbn; rewrite ?E; cbn; auto 10.
Qed.

Lemma set_psize_id it v : psize it = v -> set_psize v it = it.
Proof. destruct it; cbn; intros ->; reflexivity. Qed.


(** A child that already has the size [_adjustChildren] gives it is left
    as it is. *)
Lemma adjust_item_fix hp hp' measured size it f :
  spring f = spring it ->
  deref hp' (pcfg f) = deref hp (pcfg it) ->
  psize f = psize (adjust_item hp measured size it) ->
  adjust_item hp' measured size f = f.
Proof.
  intros Hs Hc. unfold adjust_item, expand_item, compress_item, natP, minP.
  destruct measured as [[natSum availCompr] numSprings].
  rewrite Hs.
  destruct (Qle_bool 0 (size - natSum)), (Qeq_bool numSprings 0),
    (Qeq_bool availCompr 0), (spring it) eqn:E; cbn; rewrite ?Hs, ?E; cbn;
    rewrite ?Hc; intros Hp; auto using set_psize_id.
Qed.

Lemma measure_loop_similar hp hp' its its' a b c :
  similar hp hp' its its' ->
  measure_loop hp' its' a b c = measure_loop hp its a b c.
Proof.
  intros H; revert a b c; induction H as [|it it' its its' (Hs & Hp & Hc) Hl IH];
    intros a b c; [reflexivity|].
  cbn [measure_loop]. unfold natP, minP. rewrite Hs, Hp.
  destruct (spring it); apply IH.
Qed.


Lemma cross_max_similar hp hp' its its' m :
  similar hp hp' its its' ->
  fold_left (fun m it => Math.max m (natC hp' it)) its' m =
  fold_left (fun m it => Math.max m (natC hp it)) its m.
Proof.
  intros H; revert m; induction H as [|it it' its its' (Hs & Hp & Hc) Hl IH];
    intros m; [reflexivity|].
  cbn [fold_left]. unfold natC at 2 4. rewrite Hc. apply IH.
Qed.

Lemma similar_map hp (g : Item -> Item) its :
  (forall it, spring (g it) = spring it /\ pcfg (g it) = pcfg it /\
              ccfg (g it) = ccfg it) ->
  similar hp hp its (map g its).
Proof.
  intros Hg. induction its as [|it its IH]; constructor; auto.
  destruct (Hg it) as (-> & -> & ->). auto.
Qed.

Lemma place_spec hp j size its :
  place hp j size its =
  let m := fold_left (fun m it => Math.max m (natC hp it)) its 0 in
  (stack_loop j m
     (map (fun it => set_csize (natC hp it) (adjust_item hp (measure hp its) size it))
          its) 0,
   m).
Proof.
  unfold place.
  rewrite (surjective_pairing (cross_loop hp (adjust hp size its) 0)).
  rewrite cross_loop_items, cross_loop_max, adjust_map, map_map.
  rewrite (cross_max_similar hp hp its).
  2:{ apply similar_map. intros it.
      destruct (adjust_item_kept hp (measure hp its) size it)
        as (? & _ & _ & _ & ? & ?). auto. }
  cbv zeta. do 2 f_equal. apply map_ext; intros it. unfold natC.
  destruct (adjust_item_kept hp (measure hp its) size it)
    as (_ & _ & _ & _ & _ & ->). reflexivity.
Qed.

Lemma place_items hp j size its :
  Forall2 (fun it f =>
             spring f = spring it /\ pcfg f = pcfg it /\ ccfg f = ccfg it /\
             psize f = psize (adjust_item hp (measure hp its) size it) /\
             csize f = natC hp it)
          its (place hp j size its).1.
Proof.
  rewrite place_spec. cbn [fst].
  generalize (fold_left (fun m it => Math.max m (natC hp it)) its 0) as m.
  generalize (measure hp its) as M. generalize 0 as pos. intros pos M m.
  revert pos; induction its as [|it its IH]; intros pos; constructor; auto.
  destruct (adjust_item_kept hp M size it) as (? & _ & _ & _ & ? & ?).
  destruct j; cbn; auto.
Qed.




End Idempotence.

(* ================================================================== *)
(** ** Sizing *)

Lemma sizing_loop_folds hp its a b c d e f :
  Axis.sizing_loop hp its a b c d e f =
  (SizeConfig.mk
     (fold_left (fun s it => s + Axis.natP hp it) its b)
     (fold_left (fun s it => s + Axis.minP hp it) its a)
     (fold_left (fun s it => xadd s (Axis.maxP hp it)) its c),
   SizeConfig.mk
     (fold_left (fun m it => Math.max m (Axis.natC hp it)) its e)
     (fold_left (fun m it => Math.max m (Axis.minC hp it)) its d)
     (fold_left (fun m it => xmax m (Axis.maxC hp it)) its f)).
Proof.
  revert a b c d e f; induction its as [|it its IH]; intros; [reflexivity|].
  cbn [Axis.sizing_loop fold_left]. apply IH.
Qed.

Lemma Box_sizing hp b hp' b' :
  Box._doLocalSizing hp b = (hp', b') ->
  (deref hp' (Box.primaryConfig b'), deref hp' (Box.crossConfig b')) =
    Axis.sizing_loop hp (Box.items b) 0 0 (Fin 0) 0 0 (Fin 0) /\
  extends hp hp' /\
  (length hp <= Box.primaryConfig b')%nat /\
  (length hp <= Box.crossConfig b')%nat /\
  Box.items b' = Box.items b.
Proof.
  intros H. destruct b as [r|c]; cbn [Box._doLocalSizing] in H.
  - rewrite Row_sizing in H.
    cbn [Box.items]. destruct (Axis.sizing_loop hp _ 0 0 (Fin 0) 0 0 (Fin 0)) as [P C].
    inversion H; subst; clear H.
    cbn [Box.primaryConfig Box.crossConfig Box.items Row._wConfig Row._hConfig
         Row.children].
    rewrite deref_alloc, deref_app_l, deref_alloc by (rewrite length_app; cbn; lia).
    repeat split; try (rewrite ?length_app; cbn; lia).
    intros l Hl. rewrite !deref_app_l by (rewrite ?length_app; cbn; lia). reflexivity.
  - rewrite Column_sizing in H.
    cbn [Box.items]. destruct (Axis.sizing_loop hp _ 0 0 (Fin 0) 0 0 (Fin 0)) as [P C].
    inversion H; subst; clear H.
    cbn [Box.primaryConfig Box.crossConfig Box.items Column._wConfig Column._hConfig
         Column.children].
    rewrite deref_alloc, deref_app_l, deref_alloc by (rewrite length_app; cbn; lia).
    repeat split; try (rewrite ?length_app; cbn; lia).
    intros l Hl. rewrite !deref_app_l by (rewrite ?length_app; cbn; lia). reflexivity.
Qed.

(** C2: after [_doLocalSizing] the primary-axis configuration of the
    container is the componentwise sum of the primary-axis configurations
    of all children, springs included (a max component may be
    [+Infinity]), and its cross-axis configuration is their componentwise
    maximum, for children whose configurations satisfy the invariant
    0 <= min <= natural <= max; without children all six components are 0. *)
Theorem C2_local_sizing (hp : Heap) (b : AxisBoxContainer)
    (hp' : Heap) (b' : AxisBoxContainer) :
  Forall (wfItem hp) (Box.items b) ->
  Box._doLocalSizing hp b = (hp', b') ->
  SizeConfig.eqv (deref hp' (Box.primaryConfig b'))
    (SizeConfig.mk (sumQ (Axis.natP hp) (Box.items b))
                   (sumQ (Axis.minP hp) (Box.items b))
                   (sumX (Axis.maxP hp) (Box.items b))) /\
  SizeConfig.eqv (deref hp' (Box.crossConfig b'))
    (SizeConfig.mk (maxQ (Axis.natC hp) (Box.items b))
                   (maxQ (Axis.minC hp) (Box.items b))
                   (maxX (Axis.maxC hp) (Box.items b))) /\
  (Box.children b = [] ->
   deref hp' (Box.primaryConfig b') = SizeConfig.mk 0 0 (Fin 0) /\
   deref hp' (Box.crossConfig b') = SizeConfig.mk 0 0 (Fin 0)).
Proof.
  intros Hwf H. apply Box_sizing in H. destruct H as (H & _).
  rewrite sizing_loop_folds in H. injection H as HP HC. rewrite HP, HC.
  unfold SizeConfig.eqv. cbn [SizeConfig.nat SizeConfig.min SizeConfig.max].
  repeat split.
  - rewrite sumQ_fold. ring.
  - rewrite sumQ_fold. ring.
  - eapply xeq_trans; [apply sumX_fold|]. apply xadd_0_l.
  - apply maxQ_fold_0. eapply Forall_impl; [exact Hwf|].
    intros it (_ & H0 & H1 & _). unfold Axis.natC. lra.
  - apply maxQ_fold_0. eapply Forall_impl; [exact Hwf|].
    intros it (_ & H0 & _). exact H0.
  - apply maxX_fold_0. eapply Forall_impl; [exact Hwf|].
    intros it (_ & H0 & H1 & H2). unfold Axis.maxC.
    destruct (SizeConfig.max (deref hp (Axis.ccfg it))); cbn in *; [lra | exact I].
  - apply Box_items_nil in H. rewrite H. reflexivity.
  - apply Box_items_nil in H. rewrite H. reflexivity.
Qed.

Lemma C2_local_sizing_witness :
  let '(hp', b') := Box._doLocalSizing Examples.heap (ColumnBox Examples.wideColumn) in
  SizeConfig.eqv (deref hp' (Box.primaryConfig b')) (SizeConfig.mk 16 6 Infinity) /\
  SizeConfig.eqv (deref hp' (Box.crossConfig b')) (SizeConfig.mk 7 7 Infinity).
Proof.
  destruct (Box._doLocalSizing Examples.heap (ColumnBox Examples.wideColumn))
    as [hp' b'] eqn:E.
  assert (Hwf : Forall (wfItem Examples.heap) (Box.items (ColumnBox Examples.wideColumn))).
  { repeat constructor; cbn; lra. }
  destruct (C2_local_sizing _ _ _ _ Hwf E) as (HP & HC & _).
  split.
  - destruct HP as (H1 & H2 & H3).
    repeat split; [rewrite H1 | rewrite H2 | ]; try reflexivity.
    eapply xeq_trans; [exact H3|]. exact I.
  - destruct HC as (H1 & H2 & H3).
    repeat split; [rewrite H1 | rewrite H2 | ]; try reflexivity.
    eapply xeq_trans; [exact H3|]. exact I.
Defined.

(* ================================================================== *)
(** ** Adjusting the children on the primary axis *)

(** C1: for a shortfall S with 0 < S <= availCompr, where availCompr is the
    compressibility measured by [_measureChildren], [_compressChildren]
    gives each non-spring child the primary-axis size
    max(min, natural - (natural - min) / availCompr * S) and touches
    nothing else; for children with min <= natural (the invariant of a
    size configuration) the amounts natural - size taken from the
    non-spring children add up to S, and no non-spring child is below its
    min. *)
Theorem C1_compress_children (hp : Heap) (b : AxisBoxContainer)
    (S natSum availCompr numSprings : Q) :
  Box._measureChildren hp b = (natSum, availCompr, numSprings) ->
  Forall (fun it => Axis.spring it = false -> Axis.minP hp it <= Axis.natP hp it)
         (Box.items b) ->
  0 < S -> S <= availCompr -> 0 < availCompr ->
  let b' := Box._compressChildren hp S availCompr b in
  Forall2 (fun it it' =>
             it' = if Axis.spring it then it
                   else Axis.set_psize
                          (Math.max (Axis.minP hp it)
                             (Axis.natP hp it -
                              (Axis.natP hp it - Axis.minP hp it) / availCompr * S))
                          it)
          (Box.items b) (Box.items b') /\
  sumQ (fun it' => Axis.natP hp it' - Axis.psize it') (nonSprings (Box.items b')) == S /\
  Forall (fun it' => Axis.spring it' = false -> Axis.minP hp it' <= Axis.psize it')
         (Box.items b').
Proof.
  intros Hm Hwf HS HA _ b'. subst b'. rewrite Box_compress.
  rewrite Box_measure in Hm. apply measure_spec in Hm. destruct Hm as (_ & HE & _).
  split; [|split].
  - unfold Axis.compress. generalize (Box.items b) as its.
    induction its as [|it its IH]; constructor; auto.
    unfold Axis.compress_item. destruct (Axis.spring it); reflexivity.
  - apply compress_conserves; assumption.
  - apply compress_min.
Qed.

Lemma C1_compress_children_witness :
  let b' := Box._compressChildren Examples.heap 6 10 (RowBox Examples.tightRow) in
  sumQ (fun it' => Axis.natP Examples.heap it' - Axis.psize it')
       (nonSprings (Box.items b')) == 6 /\
  Forall (fun it' => Axis.spring it' = false ->
                     Axis.minP Examples.heap it' <= Axis.psize it')
         (Box.items b').
Proof.
  refine (proj2 (C1_compress_children Examples.heap (RowBox Examples.tightRow)
                   6 16 10 0 _ _ _ _ _)).
  - reflexivity.
  - repeat constructor; cbn; lra.
  - lra.
  - lra.
  - lra.
Defined.

(** C3: with n the number of springs measured by [_measureChildren] and
    any excess E >= 0: when n is 0, [_expandChildSprings] leaves the
    container as it is; when n > 0, it gives every spring the primary-axis
    size E / n, so that the sizes of the springs add up to E, and leaves
    every non-spring child as it is. *)
Theorem C3_expand_child_springs (hp : Heap) (b : AxisBoxContainer)
    (E natSum availCompr n : Q) :
  Box._measureChildren hp b = (natSum, availCompr, n) ->
  0 <= E ->
  (n == 0 -> Box._expandChildSprings E n b = b) /\
  (0 < n ->
   let b' := Box._expandChildSprings E n b in
   Forall2 (fun it it' =>
              it' = if Axis.spring it then Axis.set_psize (E / n) it else it)
           (Box.items b) (Box.items b') /\
   sumQ Axis.psize (springs (Box.items b')) == E).
Proof.
  intros Hm _. split.
  - intros Hn. apply Qeq_bool_iff in Hn.
    destruct b as [r|c]; cbn [Box._expandChildSprings];
      unfold Row._expandChildSprings, Column._expandChildSprings; rewrite Hn;
      reflexivity.
  - intros Hn b'. subst b'. rewrite Box_expand.
    rewrite expand_nonzero by lra.
    rewrite Box_measure in Hm. apply measure_spec in Hm. destruct Hm as (_ & _ & Hc).
    split.
    + generalize (Box.items b) as its.
      induction its as [|it its IH]; constructor; auto.
    + rewrite expand_sum, <- Hc. field. lra.
Qed.

Lemma C3_expand_child_springs_witness :
  let b' := Box._expandChildSprings 84 1 (ColumnBox Examples.wideColumn) in
  Forall2 (fun it it' => it' = if Axis.spring it then Axis.set_psize (84 / 1) it else it)
          (Box.items (ColumnBox Examples.wideColumn)) (Box.items b') /\
  sumQ Axis.psize (springs (Box.items b')) == 84.
Proof.
  refine (proj2 (C3_expand_child_springs Examples.heap (ColumnBox Examples.wideColumn)
                   84 16 10 1 _ _) _).
  - reflexivity.
  - lra.
  - lra.
Defined.

(** C4, as the code has it: when the excess (the primary-axis size of the
    container minus natSum) is not negative, [_adjustChildren] leaves every
    non-spring child exactly as it was, with or without springs; such a
    child has its natural size afterwards if and only if it had it
    before. *)
Theorem C4_excess_keeps_non_springs (hp : Heap) (b : AxisBoxContainer)
    (natSum availCompr numSprings : Q) :
  Box._measureChildren hp b = (natSum, availCompr, numSprings) ->
  0 <= Box.primarySize b - natSum ->
  Forall2 (fun it it' => Axis.spring it = false -> it' = it)
          (Box.items b) (Box.items (Box._adjustChildren hp b)).
Proof.
  intros Hm He. rewrite Box_adjust. rewrite Box_measure in Hm.
  rewrite (adjust_excess hp _ _ _ _ _ Hm He). apply expand_nonSpring_kept.
Qed.

Lemma C4_excess_keeps_non_springs_witness :
  Forall2 (fun it it' => Axis.spring it = false -> it' = it)
          (Box.items (RowBox Examples.wideRow))
          (Box.items (Box._adjustChildren Examples.heap (RowBox Examples.wideRow))).
Proof.
  refine (C4_excess_keeps_non_springs Examples.heap (RowBox Examples.wideRow)
            16 10 1 _ _).
  - reflexivity.
  - cbn. lra.
Defined.

(** C4 as stated fails: a row placed at width 10 and then widened to 26 has
    an excess of 10, and [_adjustChildren] leaves its two children at the
    widths 22/5 and 28/5 of the earlier compression, not at their natural
    width 8. *)
Lemma C4_counterexample :
  let '(hp, r) := Examples.relaidRow in
  let b' := Box._adjustChildren hp (RowBox r) in
  0 <= Box.primarySize (RowBox r) - (Box._measureChildren hp (RowBox r)).1.1 /\
  Forall2 Qeq (map Axis.psize (Box.items b')) [22 # 5; 28 # 5] /\
  Forall2 Qeq (map (Axis.natP hp) (Box.items b')) [8; 8] /\
  exists it', In it' (Box.items b') /\ Axis.spring it' = false /\
              ~ Axis.psize it' == Axis.natP hp it'.
Proof.
  destruct Examples.relaidRow as [hp r] eqn:E. vm_compute in E.
  injection E as <- <-.
  split; [vm_compute; discriminate|].
  split; [repeat constructor|].
  split; [repeat constructor|].
  eexists. split; [left; reflexivity|]. split; [reflexivity|].
  vm_compute. discriminate.
Qed.

(** C7: when the excess is negative and availCompr is 0,
    [_adjustChildren] sets the primary-axis size of every spring to 0 and
    leaves every non-spring child as it is; the call returns (the function
    is total) and the shortfall stays. *)
Theorem C7_shortfall_without_compressibility (hp : Heap) (b : AxisBoxContainer)
    (natSum availCompr numSprings : Q) :
  Box._measureChildren hp b = (natSum, availCompr, numSprings) ->
  Box.primarySize b - natSum < 0 ->
  availCompr == 0 ->
  Forall2 (fun it it' => it' = if Axis.spring it then Axis.set_psize 0 it else it)
          (Box.items b) (Box.items (Box._adjustChildren hp b)).
Proof.
  intros Hm He HA. rewrite Box_adjust. rewrite Box_measure in Hm.
  rewrite (adjust_shortfall hp _ _ _ _ _ Hm He).
  apply Qeq_bool_iff in HA. rewrite HA.
  generalize (Box.items b) as its. induction its as [|it its IH]; constructor; auto.
Qed.

Lemma C7_shortfall_without_compressibility_witness :
  Forall2 (fun it it' => it' = if Axis.spring it then Axis.set_psize 0 it else it)
          (Box.items (ColumnBox Examples.stiffColumn))
          (Box.items (Box._adjustChildren Examples.heap (ColumnBox Examples.stiffColumn))).
Proof.
  refine (C7_shortfall_without_compressibility Examples.heap
            (ColumnBox Examples.stiffColumn) 12 0 1 _ _ _).
  - reflexivity.
  - cbn. lra.
  - reflexivity.
Defined.

(* ================================================================== *)
(** ** Placement *)

Lemma Box_placed hp b hp' b' :
  Box.children b <> [] ->
  Box._completeLocalLayout hp b = (hp', b') ->
  let m := fold_left (fun m it => Math.max m (Axis.natC hp it)) (Box.items b) 0 in
  Box.items b' =
    Axis.stack_loop (Box.justification b) m
      (map (fun it =>
              Axis.set_csize (Axis.natC hp it)
                (adjust_item hp (Axis.measure hp (Box.items b)) (Box.primarySize b) it))
           (Box.items b)) 0 /\
  Box.crossSize b' = m /\
  hp' = store_nat hp (Box.crossConfig b) m.
Proof.
  intros Hne H. destruct (Box_complete hp b hp' b' Hne H) as (Hp & Hh & _).
  rewrite place_spec in Hp. cbv zeta in Hp. injection Hp as Hi Hm.
  cbv zeta. rewrite <- Hm. rewrite <- Hm in Hi. auto.
Qed.

Lemma Forall2_right {A B : Type} (P : B -> Prop) (l : list A) (k : list B) :
  Forall2 (fun _ y => P y) l k -> Forall P k.
Proof. induction 1; constructor; auto. Qed.



(** C6: after [_completeLocalLayout] on a container with children, every
    child has as cross-axis size the natural size of its own cross-axis
    configuration, and the cross-axis size of the container is the maximum
    of these natural sizes (which are not negative, by the invariant of a
    size configuration). *)
Theorem C6_cross_axis_sizes (hp : Heap) (b : AxisBoxContainer)
    (hp' : Heap) (b' : AxisBoxContainer) :
  Box.children b <> [] ->
  Forall (fun it => 0 <= Axis.natC hp it) (Box.items b) ->
  Box._completeLocalLayout hp b = (hp', b') ->
  Forall2 (fun it it' => Axis.csize it' = Axis.natC hp it) (Box.items b) (Box.items b') /\
  Forall (fun it' => Axis.ccfg it' <> Box.crossConfig b ->
                     Axis.csize it' = Axis.natC hp' it')
         (Box.items b') /\
  Box.crossSize b' == maxQ (Axis.natC hp) (Box.items b).
Proof.
  intros Hne Hpos H.
  destruct (Box_complete hp b hp' b' Hne H) as (Hp & Hh & _).
  pose proof (place_items hp (Box.justification b) (Box.primarySize b) (Box.items b))
    as Hrel.
  rewrite <- Hp in Hrel. cbn [fst] in Hrel.
  destruct (Box_placed hp b hp' b' Hne H) as (_ & Hm & _). split; [|split].
  - eapply Forall2_impl; [exact Hrel|]. cbv beta. tauto.
  - apply (Forall2_right _ (Box.items b)).
    eapply Forall2_impl; [exact Hrel|]. cbv beta.
    intros it it' (_ & _ & Hc & _ & Hs) Hne'.
    rewrite Hs, Hh. unfold Axis.natC. rewrite deref_store_ne by congruence.
    rewrite Hc. reflexivity.
  - rewrite Hm. apply maxQ_fold_0. exact Hpos.
Qed.

Lemma C6_cross_axis_sizes_witness :
  let '(hp', b') := Box._completeLocalLayout Examples.heap (ColumnBox Examples.wideColumn) in
  Box.crossSize b' == 7.
Proof.
  destruct (Box._completeLocalLayout Examples.heap (ColumnBox Examples.wideColumn))
    as [hp' b'] eqn:E.
  refine (proj2 (proj2 (C6_cross_axis_sizes Examples.heap
                          (ColumnBox Examples.wideColumn) hp' b' _ _ E))).
  - discriminate.
  - repeat constructor; cbn; lra.
Defined.



(* ================================================================== *)
(** ** Writes to size configurations *)




(* ================================================================== *)
(** ** A second layout cycle *)

Section SecondCycle.
Import Axis.



End SecondCycle.









(* ================================================================== *)
(** ** The scenarios of the specification *)

(** A row of width 100 with a 20 wide strut, a spring and a 20 wide strut:
    the spring gets 60 and the children start at 0, 20 and 80. *)
Example scenario_spring_between_struts :
  let '(_, r) := Row._completeLocalLayout Examples.strutHeap Examples.strutRow in
  Forall2 Qeq (map DrawnObject.w (Row.children r)) [20; 60; 20] /\
  Forall2 Qeq (map DrawnObject.x (Row.children r)) [0; 20; 80] /\
  Row.h r == 7.
Proof. vm_compute. repeat split; repeat constructor. Qed.

(** A row of width 10 with children of (natural 8, min 2) and
    (natural 8, min 4): the shortfall 6 is shared in the proportion 6 to 4
    of their compressibility, giving the widths 22/5 and 28/5. *)
Example scenario_compression :
  let '(_, r) := Row._completeLocalLayout Examples.heap Examples.tightRow in
  Row._measureChildren Examples.heap Examples.tightRow = (16, 10, 0) /\
  Forall2 Qeq (map DrawnObject.w (Row.children r)) [22 # 5; 28 # 5] /\
  Forall2 Qeq (map DrawnObject.x (Row.children r)) [0; 22 # 5].
Proof. vm_compute. repeat split; repeat constructor. Qed.

(** A centred column of width 50 with one child of natural width 20: the
    placement shrinks the column to the width 20 of its widest child, and
    the child is at x = 0. *)
Example scenario_centred_column :
  let '(_, c) := Column._completeLocalLayout Examples.strutHeap Examples.centredColumn in
  Column.w c == 20 /\
  Forall2 Qeq (map DrawnObject.x (Column.children c)) [0].
Proof. vm_compute. repeat split; repeat constructor. Qed.

(* ================================================================== *)
(** ** Further properties of the measurements *)


Lemma sumQ_nonneg {A : Type} (f : A -> Q) l :
  Forall (fun a => 0 <= f a) l -> 0 <= sumQ f l.
Proof.
  induction 1 as [|a l Ha Hl IH]; [cbn; lra|]. rewrite sumQ_cons. lra.
Qed.

Lemma sumQ_zero {A : Type} (f : A -> Q) l :
  Forall (fun a => 0 <= f a) l ->
  (sumQ f l == 0 <-> Forall (fun a => f a == 0) l).
Proof.
  induction 1 as [|a l Ha Hl IH]; [split; [constructor | reflexivity]|].
  rewrite sumQ_cons. pose proof (sumQ_nonneg f l Hl) as Hs. split.
  - intros H. constructor; [lra|]. apply IH. lra.
  - intros H. inversion H as [|? ? H1 H2]; subst. apply IH in H2. lra.
Qed.

Lemma Forall_nonSprings_iff (P : Axis.Item -> Prop) its :
  Forall P (nonSprings its) <-> Forall (fun it => Axis.spring it = false -> P it) its.
Proof.
  split; [|apply Forall_nonSprings].
  unfold nonSprings. induction its as [|it its IH]; [constructor|].
  cbn [List.filter]. destruct (Axis.spring it) eqn:E; cbn [negb]; intros H.
  - constructor; [congruence | auto].
  - inversion H; subst. constructor; auto.
Qed.

(** X1: the three numbers that [_measureChildren] returns are the sum of
    the natural primary-axis sizes of the non-spring children, the sum of
    natural - min over the non-spring children, and the number of spring
    children. *)
Theorem measure_children_sums (hp : Heap) (b : AxisBoxContainer)
    (natSum availCompr numSprings : Q) :
  Box._measureChildren hp b = (natSum, availCompr, numSprings) ->
  natSum == sumQ (Axis.natP hp) (nonSprings (Box.items b)) /\
  availCompr ==
    sumQ (fun it => Axis.natP hp it - Axis.minP hp it) (nonSprings (Box.items b)) /\
  numSprings == inject_Z (Z.of_nat (length (springs (Box.items b)))).
Proof. intros H. rewrite Box_measure in H. apply measure_spec. exact H. Qed.

Lemma measure_children_sums_witness :
  16 == sumQ (Axis.natP Examples.heap) (nonSprings (Box.items (RowBox Examples.wideRow))) /\
  1 == inject_Z (Z.of_nat (length (springs (Box.items (RowBox Examples.wideRow))))).
Proof.
  destruct (measure_children_sums Examples.heap (RowBox Examples.wideRow) 16 10 1
              eq_refl) as (H1 & _ & H3).
  split; assumption.
Defined.

(** X2: when no non-spring child has a min above its natural size, the
    measured compressibility is not negative, and it is 0 exactly when
    every non-spring child has natural == min; the measured number of
    springs is 0 exactly when there is no spring. *)
Theorem measure_children_zero (hp : Heap) (b : AxisBoxContainer)
    (natSum availCompr numSprings : Q) :
  Forall (fun it => Axis.spring it = false -> Axis.minP hp it <= Axis.natP hp it)
         (Box.items b) ->
  Box._measureChildren hp b = (natSum, availCompr, numSprings) ->
  0 <= availCompr /\
  (availCompr == 0 <->
   Forall (fun it => Axis.spring it = false -> Axis.natP hp it == Axis.minP hp it)
          (Box.items b)) /\
  (numSprings == 0 <-> springs (Box.items b) = []).
Proof.
  intros Hwf H. rewrite Box_measure in H. apply measure_spec in H.
  destruct H as (_ & HA & Hn).
  assert (Hpos : Forall (fun it => 0 <= Axis.natP hp it - Axis.minP hp it)
                        (nonSprings (Box.items b))).
  { apply Forall_nonSprings. eapply Forall_impl; [exact Hwf|].
    cbv beta. intros it H Hs. specialize (H Hs). lra. }
  split; [|split].
  - rewrite HA. apply sumQ_nonneg, Hpos.
  - rewrite HA, (sumQ_zero _ _ Hpos), Forall_nonSprings_iff.
    split; intros H; (eapply Forall_impl; [exact H|]); cbv beta;
      intros it Hi Hs; specialize (Hi Hs); lra.
  - rewrite Hn. destruct (springs (Box.items b)) as [|s l].
    + split; reflexivity.
    + split; [|discriminate]. intros H. exfalso.
      cbn [length] in H. rewrite Nat2Z.inj_succ in H.
      assert (0 < inject_Z (Z.succ (Z.of_nat (length l)))).
      { change 0 with (inject_Z 0). rewrite <- Zlt_Qlt. lia. }
      lra.
Qed.

Lemma measure_children_zero_witness :
  (0 == 0 <->
   Forall (fun it => Axis.spring it = false ->
                     Axis.natP Examples.heap it == Axis.minP Examples.heap it)
          (Box.items (ColumnBox Examples.stiffColumn))).
Proof.
  refine (proj1 (proj2 (measure_children_zero Examples.heap
                          (ColumnBox Examples.stiffColumn) 12 0 1 _ eq_refl))).
  repeat constructor; cbn; lra.
Defined.

(* ================================================================== *)
(** ** What [_adjustChildren] achieves *)












Lemma compress_proper hp S S' availCompr it :
  S == S' ->
  Axis.psize (Axis.compress_item hp S availCompr it) ==
  Axis.psize (Axis.compress_item hp S' availCompr it).
Proof.
  intros E. unfold Axis.compress_item. destruct (Axis.spring it); [reflexivity|].
  cbn [negb Axis.psize Axis.set_psize].
  assert (E' : Axis.natP hp it - (Axis.natP hp it - Axis.minP hp it) / availCompr * S ==
               Axis.natP hp it - (Axis.natP hp it - Axis.minP hp it) / availCompr * S')
    by (rewrite E; reflexivity).
  split_max; lra.
Qed.








Lemma Box_adjust_frame hp b :
  Box.primarySize (Box._adjustChildren hp b) = Box.primarySize b /\
  Box.crossSize (Box._adjustChildren hp b) = Box.crossSize b /\
  Box.primaryPos (Box._adjustChildren hp b) = Box.primaryPos b /\
  Box.crossPos (Box._adjustChildren hp b) = Box.crossPos b /\
  Box.primaryConfig (Box._adjustChildren hp b) = Box.primaryConfig b /\
  Box.crossConfig (Box._adjustChildren hp b) = Box.crossConfig b /\
  Setters.justificationString (Box._adjustChildren hp b) = Setters.justificationString b.
Proof.
  destruct b as [r|c]; cbn [Box._adjustChildren].
  - rewrite Row_adjust_frame. repeat split.
  - rewrite Column_adjust_frame. repeat split.
Qed.


Lemma adjust_twice hp size its :
  Axis.adjust hp size (Axis.adjust hp size its) = Axis.adjust hp size its.
Proof.
  rewrite (adjust_map hp size (Axis.adjust hp size its)).
  assert (Hsim : similar hp hp its (Axis.adjust hp size its)).
  { rewrite adjust_map. apply similar_map. intros it.
    destruct (adjust_item_kept hp (Axis.measure hp its) size it)
      as (? & _ & _ & _ & ? & ?). auto. }
  unfold Axis.measure at 1. rewrite (measure_loop_similar hp hp its _ 0 0 0 Hsim).
  fold (Axis.measure hp its). rewrite adjust_map at 2. rewrite adjust_map.
  rewrite map_map. apply map_ext. intros it.
  destruct (adjust_item_kept hp (Axis.measure hp its) size it)
    as (Hs & _ & _ & _ & Hp & _).
  apply (adjust_item_fix hp hp _ size it); [exact Hs | rewrite Hp; reflexivity | reflexivity].
Qed.

(** X7: [_adjustChildren] is idempotent: adjusting an adjusted container
    again, in the same heap, changes nothing. *)
Theorem adjust_idempotent (hp : Heap) (b : AxisBoxContainer) :
  Box._adjustChildren hp (Box._adjustChildren hp b) = Box._adjustChildren hp b.
Proof.
  pose proof (Box_adjust hp (Box._adjustChildren hp b)) as H.
  destruct (Box_adjust_frame hp b) as (HW & _).
  rewrite HW, (Box_adjust hp b), adjust_twice, <- (Box_adjust hp b) in H.
  destruct b as [r|c]; cbn [Box._adjustChildren Box.items] in *; f_equal.
  - rewrite (Row_adjust_frame hp (Row._adjustChildren hp r)).
    rewrite <- (Row_object_item (Row.children (Row._adjustChildren hp (Row._adjustChildren hp r)))).
    rewrite H, Row_object_item. destruct (Row._adjustChildren hp r); reflexivity.
  - rewrite (Column_adjust_frame hp (Column._adjustChildren hp c)).
    rewrite <- (Column_object_item
                  (Column.children (Column._adjustChildren hp (Column._adjustChildren hp c)))).
    rewrite H, Column_object_item. destruct (Column._adjustChildren hp c); reflexivity.
Qed.

(* ================================================================== *)
(** ** Further properties of the placement *)



















(* ================================================================== *)
(** ** Further properties of the sizing *)

Lemma fold_sum_le {A : Type} (f g : A -> Q) l a b :
  a <= b -> Forall (fun x => f x <= g x) l ->
  fold_left (fun s x => s + f x) l a <= fold_left (fun s x => s + g x) l b.
Proof.
  intros Hab H; revert a b Hab; induction H as [|x l Hx Hl IH]; intros a b Hab;
    [exact Hab|].
  cbn [fold_left]. apply IH. lra.
Qed.

Lemma fold_sum_xle {A : Type} (f : A -> Q) (g : A -> xQ) l a c :
  xle (Fin a) c -> Forall (fun x => xle (Fin (f x)) (g x)) l ->
  xle (Fin (fold_left (fun s x => s + f x) l a))
      (fold_left (fun s x => xadd s (g x)) l c).
Proof.
  intros Hac H; revert a c Hac; induction H as [|x l Hx Hl IH]; intros a c Hac;
    [exact Hac|].
  cbn [fold_left]. apply IH. destruct c, (g x); cbn in *; auto. lra.
Qed.

Lemma fold_max_le {A : Type} (f g : A -> Q) l a b :
  a <= b -> Forall (fun x => f x <= g x) l ->
  fold_left (fun m x => Math.max m (f x)) l a <=
  fold_left (fun m x => Math.max m (g x)) l b.
Proof.
  intros Hab H; revert a b Hab; induction H as [|x l Hx Hl IH]; intros a b Hab;
    [exact Hab|].
  cbn [fold_left]. apply IH. split_max; lra.
Qed.

Lemma fold_max_xle {A : Type} (f : A -> Q) (g : A -> xQ) l a c :
  xle (Fin a) c -> Forall (fun x => xle (Fin (f x)) (g x)) l ->
  xle (Fin (fold_left (fun m x => Math.max m (f x)) l a))
      (fold_left (fun m x => xmax m (g x)) l c).
Proof.
  intros Hac H; revert a c Hac; induction H as [|x l Hx Hl IH]; intros a c Hac;
    [exact Hac|].
  cbn [fold_left]. apply IH. destruct c, (g x); cbn in *; auto. split_max; lra.
Qed.

(** X12: [_doLocalSizing] keeps the invariant of size configurations: when
    both configurations of every child have 0 <= min <= natural <= max, so
    have the two configurations it gives the container. *)
Theorem sizing_keeps_invariant (hp : Heap) (b : AxisBoxContainer)
    (hp' : Heap) (b' : AxisBoxContainer) :
  Forall (wfItem hp) (Box.items b) ->
  Box._doLocalSizing hp b = (hp', b') ->
  SizeConfig.wf (deref hp' (Box.primaryConfig b')) /\
  SizeConfig.wf (deref hp' (Box.crossConfig b')).
Proof.
  intros Hwf H. apply Box_sizing in H. destruct H as (H & _).
  rewrite sizing_loop_folds in H. injection H as -> ->.
  unfold SizeConfig.wf. cbn [SizeConfig.nat SizeConfig.min SizeConfig.max].
  repeat split.
  - rewrite sumQ_fold. assert (0 <= sumQ (Axis.minP hp) (Box.items b)); [|lra].
    apply sumQ_nonneg. eapply Forall_impl; [exact Hwf|]. intros it [(H0 & _) _]. exact H0.
  - apply fold_sum_le; [lra|]. eapply Forall_impl; [exact Hwf|].
    intros it [(_ & H0 & _) _]. exact H0.
  - apply fold_sum_xle; [cbn; lra|]. eapply Forall_impl; [exact Hwf|].
    intros it [(_ & _ & H0) _]. exact H0.
  - apply (maxQ_upper (Axis.minC hp) (Box.items b) 0).
  - apply fold_max_le; [lra|]. eapply Forall_impl; [exact Hwf|].
    intros it [_ (_ & H0 & _)]. exact H0.
  - apply fold_max_xle; [cbn; lra|]. eapply Forall_impl; [exact Hwf|].
    intros it [_ (_ & _ & H0)]. exact H0.
Qed.

Lemma sizing_keeps_invariant_witness :
  let '(hp', b') := Box._doLocalSizing Examples.heap (RowBox Examples.wideRow) in
  SizeConfig.wf (deref hp' (Box.primaryConfig b')) /\
  SizeConfig.wf (deref hp' (Box.crossConfig b')).
Proof.
  destruct (Box._doLocalSizing Examples.heap (RowBox Examples.wideRow)) as [hp' b'] eqn:E.
  refine (sizing_keeps_invariant Examples.heap (RowBox Examples.wideRow) hp' b' _ E).
  repeat constructor; cbn; lra.
Defined.

Lemma Box_sizing_frame hp b hp' b' :
  Box._doLocalSizing hp b = (hp', b') ->
  Box.children b' = Box.children b /\
  Box.primarySize b' = Box.primarySize b /\
  Box.crossSize b' = Box.crossSize b /\
  Box.primaryPos b' = Box.primaryPos b /\
  Box.crossPos b' = Box.crossPos b /\
  Setters.justificationString b' = Setters.justificationString b /\
  Box.primaryConfig b' <> Box.crossConfig b' /\
  (Box.primaryConfig b' < length hp')%nat /\
  (Box.crossConfig b' < length hp')%nat /\
  length hp' = (length hp + 2)%nat.
Proof.
  intros H. destruct b as [r|c]; cbn [Box._doLocalSizing] in H.
  - rewrite Row_sizing in H.
    destruct (Axis.sizing_loop hp _ 0 0 (Fin 0) 0 0 (Fin 0)) as [P C].
    injection H as <- <-. cbn. rewrite !length_app. cbn. repeat split; lia.
  - rewrite Column_sizing in H.
    destruct (Axis.sizing_loop hp _ 0 0 (Fin 0) 0 0 (Fin 0)) as [P C].
    injection H as <- <-. cbn. rewrite !length_app. cbn. repeat split; lia.
Qed.

(** X13: [_doLocalSizing] changes nothing of the container but its two
    configuration references, which afterwards are two different objects
    allocated by the call; the children, the geometry and the
    justification stay as they were. *)
Theorem sizing_changes_only_configs (hp : Heap) (b : AxisBoxContainer)
    (hp' : Heap) (b' : AxisBoxContainer) :
  Box._doLocalSizing hp b = (hp', b') ->
  Box.children b' = Box.children b /\
  Box.primarySize b' = Box.primarySize b /\
  Box.crossSize b' = Box.crossSize b /\
  Box.primaryPos b' = Box.primaryPos b /\
  Box.crossPos b' = Box.crossPos b /\
  Setters.justificationString b' = Setters.justificationString b /\
  Box.primaryConfig b' <> Box.crossConfig b' /\
  (length hp <= Box.primaryConfig b' < length hp')%nat /\
  (length hp <= Box.crossConfig b' < length hp')%nat /\
  length hp' = (length hp + 2)%nat.
Proof.
  intros H. destruct (Box_sizing_frame hp b hp' b' H)
    as (H1 & H2 & H3 & H4 & H5 & H6 & H7 & H8 & H9 & H10).
  apply Box_sizing in H. destruct H as (_ & _ & Hp & Hc & _).
  repeat split; assumption.
Qed.

Lemma sizing_changes_only_configs_witness :
  let '(hp', b') := Box._doLocalSizing Examples.heap (ColumnBox Examples.wideColumn) in
  Box.children b' = Box.children (ColumnBox Examples.wideColumn) /\
  Box.primaryConfig b' <> Box.crossConfig b'.
Proof.
  destruct (Box._doLocalSizing Examples.heap (ColumnBox Examples.wideColumn))
    as [hp' b'] eqn:E.
  destruct (sizing_changes_only_configs Examples.heap (ColumnBox Examples.wideColumn)
              hp' b' E) as (H1 & _ & _ & _ & _ & _ & H7 & _).
  split; assumption.
Defined.



(* ================================================================== *)
(** ** The in-place write of the placement *)









(* ================================================================== *)
(** ** The setters *)

Lemma Row_set_w_state hp v this :
  (Row.set_w_notifying hp v this).1 = Row.set_w hp v this.
Proof.
  unfold Row.set_w_notifying, Row.set_w. destruct (Qeq_bool v (Row.w this)); reflexivity.
Qed.

(** X17: the setter of the primary-axis size ([set w] of a row, [set h] of
    a column) leaves the container with a size equal to the value given.
    When the value equals the current size it changes nothing and sends no
    notification; otherwise it sends two, for the bounds before and after
    the change, stores the value, and pins the primary-axis configuration
    to a newly allocated fixed(v), touching nothing else.  Calling it again
    with the same value is silent and changes nothing. *)
Theorem primary_size_setter (hp : Heap) (v : Q) (b : AxisBoxContainer)
    (hp' : Heap) (b' : AxisBoxContainer) (ns : list Notification) :
  Setters.set_primarySize hp v b = (hp', b', ns) ->
  Box.primarySize b' == v /\
  (v == Box.primarySize b -> hp' = hp /\ b' = b /\ ns = []) /\
  (~ v == Box.primarySize b ->
   ns = [Setters.damageAll b; Setters.damageAll b'] /\
   Box.primarySize b' = v /\
   hp' = hp ++ [SizeConfig.fixed v] /\
   Box.primaryConfig b' = length hp /\
   Box.children b' = Box.children b /\
   Box.crossSize b' = Box.crossSize b /\
   Box.crossConfig b' = Box.crossConfig b /\
   Box.primaryPos b' = Box.primaryPos b /\
   Box.crossPos b' = Box.crossPos b /\
   Setters.justificationString b' = Setters.justificationString b) /\
  Setters.set_primarySize hp' v b' = (hp', b', []).
Proof.
  intros H. destruct b as [r|c]; cbn [Setters.set_primarySize] in H.
  - unfold Row.set_w_notifying in H.
    destruct (Qeq_bool v (Row.w r)) eqn:E; cbn [negb] in H; injection H as <- <- <-.
    + apply Qeq_bool_iff in E. split; [symmetry; exact E|]. split; [auto|].
      split; [intros Hn; contradiction|].
      cbn [Setters.set_primarySize]. unfold Row.set_w_notifying.
      apply Qeq_bool_iff in E. rewrite E. reflexivity.
    + apply Qeq_bool_neq in E. split; [reflexivity|].
      split; [intros He; contradiction|]. split; [intros _; repeat split|].
      cbn [Setters.set_primarySize]. unfold Row.set_w_notifying.
      cbn [Row.w Row.with__wConfig]. rewrite (Qeq_bool_refl v). reflexivity.
  - unfold Column.set_h_notifying in H.
    destruct (Qeq_bool v (Column.h c)) eqn:E; cbn [negb] in H; injection H as <- <- <-.
    + apply Qeq_bool_iff in E. split; [symmetry; exact E|]. split; [auto|].
      split; [intros Hn; contradiction|].
      cbn [Setters.set_primarySize]. unfold Column.set_h_notifying.
      apply Qeq_bool_iff in E. rewrite E. reflexivity.
    + apply Qeq_bool_neq in E. split; [reflexivity|].
      split; [intros He; contradiction|]. split; [intros _; repeat split|].
      cbn [Setters.set_primarySize]. unfold Column.set_h_notifying.
      cbn [Column.h Column.set_hConfig]. rewrite (Qeq_bool_refl v). reflexivity.
Qed.

Lemma primary_size_setter_witness :
  let '(hp', b', ns) := Setters.set_primarySize Examples.heap 26 (RowBox Examples.tightRow) in
  Box.primarySize b' == 26 /\
  Setters.set_primarySize hp' 26 b' = (hp', b', []).
Proof.
  destruct (Setters.set_primarySize Examples.heap 26 (RowBox Examples.tightRow))
    as [[hp' b'] ns] eqn:E.
  destruct (primary_size_setter Examples.heap 26 (RowBox Examples.tightRow) hp' b' ns E)
    as (H1 & _ & _ & H2).
  split; assumption.
Defined.

(** X18: the justification setter ([set hJustification] of a row,
    [set wJustification] of a column) leaves the container with the
    justification given.  When the string is the current one it changes
    nothing and sends no notification; otherwise it sends one, for the
    container after the change, and changes nothing but the justification.
    Calling it again with the same string is silent and changes nothing. *)
Theorem justification_setter (v : string) (b b' : AxisBoxContainer)
    (ns : list Notification) :
  Setters.set_justification v b = (b', ns) ->
  Setters.justificationString b' = v /\
  (v = Setters.justificationString b -> b' = b /\ ns = []) /\
  (v <> Setters.justificationString b -> ns = [Setters.damageAll b']) /\
  Box.children b' = Box.children b /\
  Setters.damageAll b' = Setters.damageAll b /\
  Box.primaryConfig b' = Box.primaryConfig b /\
  Box.crossConfig b' = Box.crossConfig b /\
  Setters.set_justification v b' = (b', []).
Proof.
  intros H. destruct b as [r|c]; cbn [Setters.set_justification] in H.
  - unfold Row.set_hJustification in H.
    destruct (String.eqb v (Row._hJustification r)) eqn:E; cbn [negb] in H;
      injection H as <- <-.
    + apply String.eqb_eq in E. cbn [Setters.justificationString].
      repeat split; auto; try congruence.
      cbn [Setters.set_justification]. unfold Row.set_hJustification.
      rewrite E, String.eqb_refl. reflexivity.
    + apply String.eqb_neq in E. cbn [Setters.justificationString Row._hJustification].
      repeat split; auto; try congruence.
      cbn [Setters.set_justification]. unfold Row.set_hJustification.
      cbn [Row._hJustification]. rewrite String.eqb_refl. reflexivity.
  - unfold Column.set_wJustification in H.
    destruct (String.eqb v (Column._wJustification c)) eqn:E; cbn [negb] in H;
      injection H as <- <-.
    + apply String.eqb_eq in E. cbn [Setters.justificationString].
      repeat split; auto; try congruence.
      cbn [Setters.set_justification]. unfold Column.set_wJustification.
      rewrite E, String.eqb_refl. reflexivity.
    + apply String.eqb_neq in E.
      cbn [Setters.justificationString Column._wJustification].
      repeat split; auto; try congruence.
      cbn [Setters.set_justification]. unfold Column.set_wJustification.
      cbn [Column._wJustification]. rewrite String.eqb_refl. reflexivity.
Qed.

Lemma justification_setter_witness :
  let '(b', ns) := Setters.set_justification "right" (ColumnBox Examples.stiffColumn) in
  Setters.justificationString b' = "right"%string /\
  Setters.set_justification "right" b' = (b', []).
Proof.
  destruct (Setters.set_justification "right" (ColumnBox Examples.stiffColumn))
    as [b' ns] eqn:E.
  destruct (justification_setter "right" (ColumnBox Examples.stiffColumn) b' ns E)
    as (H1 & _ & _ & _ & _ & _ & _ & H2).
  split; assumption.
Defined.
